(** * Ukrainian LLM leaderboard helpers: proxies and answer filters

    A shallow embedding of

    - [src/groq_proxy.py]       (the request normalizer and [load_env]),
    - [src/reasoning_proxy.py]  (the response normalizer),
    - [src/tasks/ukrainian_bench/common_filters.py] (the answer filters),

    followed by the properties proved about them.

    Python values are modelled as follows.  A [str] is the list of its
    Unicode code points, a [bytes] object the list of its bytes, a JSON
    value what [json.loads] builds (a [dict] is a finite map from [str]
    keys, Python equality of dicts ignoring insertion order), an
    exception raised by a step is a value of [exn] returned on the left. *)

From Stdlib Require Import String Ascii NArith ZArith List Lia ZifyBool.
From Stdlib Require Import Floats.SpecFloat.
From stdpp Require Import gmap list.

#[local] Set Warnings "-register-all".
#[local] Open Scope N_scope.

(** ** Part I: the embedding *)

(** *** Python strings, bytes and JSON values *)

Module Py.

(** The [str] written by an ASCII literal of the source. *)
Definition u (s : string) : list N := map N_of_ascii (list_ascii_of_string s).

Definition in_range (lo hi c : N) : bool := (lo <=? c) && (c <=? hi).

(** [str.isspace] on one code point; [\s] of the [re] module is the same
    set for [str] patterns. *)
Definition isspace (c : N) : bool :=
  in_range 0x09 0x0d c || in_range 0x1c 0x20 c
  || (c =? 0x85) || (c =? 0xa0) || (c =? 0x1680)
  || in_range 0x2000 0x200a c || (c =? 0x2028) || (c =? 0x2029)
  || (c =? 0x202f) || (c =? 0x205f) || (c =? 0x3000).

(** [not s] for a string is [s == ''] ; [nonempty] is its truth value. *)
Definition nonempty (s : list N) : bool :=
  match s with [] => false | _ :: _ => true end.

Fixpoint lstrip_by (p : N -> bool) (s : list N) : list N :=
  match s with
  | [] => []
  | c :: s' => if p c then lstrip_by p s' else s
  end.

Definition rstrip_by (p : N -> bool) (s : list N) : list N :=
  rev (lstrip_by p (rev s)).

Definition strip_by (p : N -> bool) (s : list N) : list N :=
  rstrip_by p (lstrip_by p s).

(** [s.strip()] *)
Definition strip (s : list N) : list N := strip_by isspace s.

Definition mem (c : N) (chars : list N) : bool := existsb (N.eqb c) chars.

(** [s.strip(chars)] *)
Definition strip_chars (chars s : list N) : list N :=
  strip_by (fun c => mem c chars) s.

(** [s.startswith(p)] *)
Fixpoint startswith (s p : list N) {struct p} : bool :=
  match p with
  | [] => true
  | a :: p' =>
      match s with
      | [] => false
      | b :: s' => (a =? b) && startswith s' p'
      end
  end.

(** [s.endswith(p)] *)
Definition endswith (s p : list N) : bool := startswith (rev s) (rev p).

(** The text before and after the first occurrence of [sep] in [s]. *)
Fixpoint find_split (sep s : list N) : option (list N * list N) :=
  if startswith s sep then Some ([], drop (length sep) s)
  else match s with
       | [] => None
       | c :: s' =>
           match find_split sep s' with
           | Some (a, b) => Some (c :: a, b)
           | None => None
           end
       end.

(** [sub in s] *)
Definition contains (sub s : list N) : bool :=
  match find_split sub s with Some _ => true | None => false end.

(** [s.split(sep, 1)] for a non-empty [sep]. *)
Definition split1 (sep s : list N) : list (list N) :=
  match find_split sep s with
  | Some (a, b) => [a; b]
  | None => [s]
  end.

(** [s.partition(sep)] *)
Definition partition (sep s : list N) : list N * list N * list N :=
  match find_split sep s with
  | Some (a, b) => (a, sep, b)
  | None => (s, [], [])
  end.

(** [s.split(c)] for a separator of one character. *)
Fixpoint split_char (c : N) (s : list N) : list (list N) :=
  match s with
  | [] => [[]]
  | x :: s' =>
      if x =? c then [] :: split_char c s'
      else match split_char c s' with
           | l :: ls => (x :: l) :: ls
           | [] => [[x]]
           end
  end.

(** Exceptions that the modelled code can raise. *)
Inductive exn :=
  | JSONDecodeError
  | UnicodeDecodeError
  | RecursionError
  | TypeError
  | AttributeError
  | ValueError.

(** What [json.loads] returns: [None], [bool], [int], [float], [str],
    [list] and [dict]. *)
Inductive json :=
  | JNull
  | JBool (b : bool)
  | JInt (z : Z)
  | JFloat (f : spec_float)
  | JStr (s : list N)
  | JArr (l : list json)
  | JObj (d : gmap (list N) json).

(** [bool(v)]: the truth value that [if v], [not v] and [and] test. *)
Definition truthy (v : json) : bool :=
  match v with
  | JNull => false
  | JBool b => b
  | JInt z => negb (z =? 0)%Z
  | JFloat f => match f with S754_zero _ => false | _ => true end
  | JStr s => nonempty s
  | JArr l => match l with [] => false | _ :: _ => true end
  | JObj d => negb (bool_decide (size d = 0%nat))
  end.

(** [v == s] for a string [s]. *)
Definition is_str (s : list N) (v : json) : bool :=
  match v with
  | JStr t => bool_decide (t = s)
  | _ => false
  end.

(** [d.get(k, dflt)] *)
Definition get {V} (d : gmap (list N) V) (k : list N) (dflt : V) : V :=
  default dflt (d !! k).

(** [d.pop(k, None)], for its effect on [d]. *)
Definition pop {V} (k : list N) (d : gmap (list N) V) : gmap (list N) V :=
  delete k d.

(** What [for x in v] visits, or the [TypeError] of a value that is not
    iterable.  A string yields its characters and a dict its keys; the
    order of the keys is that of insertion, which the map does not keep
    and on which nothing below depends. *)
Definition iterate (v : json) : exn + list json :=
  match v with
  | JArr l => inr l
  | JStr s => inr (map (fun c => JStr [c]) s)
  | JObj d => inr (map (fun kv => JStr (fst kv)) (map_to_list d))
  | _ => inl TypeError
  end.

(** The encodings [json.detect_encoding] can answer. *)
Inductive encoding :=
  | UTF8 | UTF8_SIG | UTF16 | UTF16_BE | UTF16_LE | UTF32 | UTF32_BE | UTF32_LE.

Definition byte_at (b : list N) (i : nat) : N := default 0 (b !! i).

(** [json.detect_encoding], as the standard library writes it: byte order
    marks first, then the pattern of zero bytes, UTF-8 otherwise. *)
Definition detect_encoding (b : list N) : encoding :=
  if startswith b [0x00; 0x00; 0xfe; 0xff] || startswith b [0xff; 0xfe; 0x00; 0x00]
  then UTF32
  else if startswith b [0xfe; 0xff] || startswith b [0xff; 0xfe] then UTF16
  else if startswith b [0xef; 0xbb; 0xbf] then UTF8_SIG
  else if (4 <=? length b)%nat then
    if byte_at b 0 =? 0 then
      (if byte_at b 1 =? 0 then UTF32_BE else UTF16_BE)
    else if byte_at b 1 =? 0 then
      (if (byte_at b 2 =? 0) && (byte_at b 3 =? 0) then UTF32_LE else UTF16_LE)
    else UTF8
  else if (length b =? 2)%nat then
    if byte_at b 0 =? 0 then UTF16_BE
    else if byte_at b 1 =? 0 then UTF16_LE
    else UTF8
  else UTF8.

Definition is_cont (c : N) : bool := in_range 0x80 0xbf c.

Definition cont (c : N) : N := c - 0x80.

(** [b.decode('utf-8', 'surrogatepass')]: [None] when it raises
    [UnicodeDecodeError].  Overlong forms and values above U+10FFFF are
    refused; the three-byte forms of surrogates pass. *)
Fixpoint utf8_decode (b : list N) : option (list N) :=
  match b with
  | [] => Some []
  | c0 :: r0 =>
    if c0 <? 0x80 then cons c0 <$> utf8_decode r0
    else if in_range 0xc2 0xdf c0 then
      match r0 with
      | c1 :: r1 =>
          if is_cont c1
          then cons ((c0 - 0xc0) * 64 + cont c1) <$> utf8_decode r1
          else None
      | _ => None
      end
    else if in_range 0xe0 0xef c0 then
      match r0 with
      | c1 :: c2 :: r2 =>
          if is_cont c1 && is_cont c2 && negb ((c0 =? 0xe0) && (c1 <? 0xa0))
          then cons ((c0 - 0xe0) * 4096 + cont c1 * 64 + cont c2)
                 <$> utf8_decode r2
          else None
      | _ => None
      end
    else if in_range 0xf0 0xf4 c0 then
      match r0 with
      | c1 :: c2 :: c3 :: r3 =>
          if is_cont c1 && is_cont c2 && is_cont c3
             && negb ((c0 =? 0xf0) && (c1 <? 0x90))
             && negb ((c0 =? 0xf4) && (0x8f <? c1))
          then cons ((c0 - 0xf0) * 262144 + cont c1 * 4096
                     + cont c2 * 64 + cont c3)
                 <$> utf8_decode r3
          else None
      | _ => None
      end
    else None
  end.

Section loads.

(** [json.JSONDecoder().decode] on text: the value, or the exception it
    raises ([JSONDecodeError] on malformed text).  It is library code
    and is taken as given. *)
Variable json_decode : list N -> exn + json.

(** [bytes.decode] of the UTF-16 and UTF-32 codecs, taken as given. *)
Variable wide_decode : encoding -> list N -> option (list N).

(** [b.decode(detect_encoding(b), 'surrogatepass')] *)
Definition decode_bytes (b : list N) : option (list N) :=
  match detect_encoding b with
  | UTF8 => utf8_decode b
  | UTF8_SIG => utf8_decode (drop 3 b)
  | e => wide_decode e b
  end.

(** [json.loads(b)] for a [bytes] argument. *)
Definition loads (b : list N) : exn + json :=
  match decode_bytes b with
  | None => inl UnicodeDecodeError
  | Some s => json_decode s
  end.

End loads.

End Py.

(** *** The fragment of [re] that the filters use *)

Module Re.
Import Py.

(** A set of characters: [.] under [re.DOTALL], [\s], or a bracketed set
    of ranges. *)
Inductive cclass :=
  | CAny
  | CSpace
  | CSet (ranges : list (N * N)).

Definition cmatch (k : cclass) (c : N) : bool :=
  match k with
  | CAny => true
  | CSpace => isspace c
  | CSet ranges => existsb (fun r => in_range (fst r) (snd r) c) ranges
  end.

(** One item of a pattern. *)
Inductive node :=
  | Lit (s : list N)          (* literal text                  *)
  | MinStar (k : cclass)      (* [k*?]                         *)
  | MaxStar (k : cclass)      (* [k*]                          *)
  | WordBoundary              (* [\b]                          *)
  | Group1 (k : cclass).      (* [(k)], the pattern's group 1  *)

(** A pattern is the sequence of its items. *)
Definition regex := list node.

(** A match: the number of characters it spans and what group 1 holds. *)
Definition span := (nat * option N)%type.

Definition bump (n : nat) (r : option span) : option span :=
  match r with
  | Some (m, g) => Some ((n + m)%nat, g)
  | None => None
  end.

Section matcher.

(** [str.isalnum] on one code point.  The Unicode table behind it is
    library data and is taken as given. *)
Variable isalnum : N -> bool.

(** [\w] for a [str] pattern: alphanumeric or the underscore. *)
Definition isword (c : N) : bool := isalnum c || (c =? 95).

Definition word_before (prev : option N) : bool :=
  match prev with Some c => isword c | None => false end.

(** [\b] holds between [prev] and [next] when exactly one side is a
    word character; the ends of the string count as non-word. *)
Definition at_boundary (prev next : option N) : bool :=
  negb (eqb (word_before prev) (word_before next)).

Definition last_or (prev : option N) (l : list N) : option N :=
  match last l with Some c => Some c | None => prev end.

(** The backtracking matcher: [match_here re g prev s] matches [re] at
    the head of [s], where [prev] is the character before it and [g]
    what group 1 holds so far.  A lazy star tries the rest of the
    pattern before it takes one more character; a greedy star takes all
    it can and gives back one at a time. *)
Fixpoint match_here (re : regex) (g : option N) (prev : option N)
    (s : list N) {struct re} : option span :=
  match re with
  | [] => Some (0%nat, g)
  | Lit l :: k =>
      if startswith s l
      then bump (length l) (match_here k g (last_or prev l) (drop (length l) s))
      else None
  | MinStar c :: k =>
      (fix lazy (prev : option N) (s : list N) {struct s} : option span :=
         match match_here k g prev s with
         | Some r => Some r
         | None =>
             match s with
             | x :: s' => if cmatch c x then bump 1 (lazy (Some x) s') else None
             | [] => None
             end
         end) prev s
  | MaxStar c :: k =>
      (fix greedy (prev : option N) (s : list N) {struct s} : option span :=
         match s with
         | x :: s' =>
             if cmatch c x then
               match greedy (Some x) s' with
               | Some r => bump 1 (Some r)
               | None => match_here k g prev s
               end
             else match_here k g prev s
         | [] => match_here k g prev s
         end) prev s
  | WordBoundary :: k =>
      if at_boundary prev (head s) then match_here k g prev s else None
  | Group1 c :: k =>
      match s with
      | x :: s' => if cmatch c x then bump 1 (match_here k (Some x) (Some x) s') else None
      | [] => None
      end
  end.

(** [re.search(re, s)]: the leftmost position where the pattern
    matches; answers the position, the span and group 1. *)
Fixpoint search_from (re : regex) (pos : nat) (prev : option N) (s : list N)
    : option (nat * span) :=
  match match_here re None prev s with
  | Some m => Some (pos, m)
  | None =>
      match s with
      | x :: s' => search_from re (S pos) (Some x) s'
      | [] => None
      end
  end.

Definition search (re : regex) (s : list N) : option (nat * span) :=
  search_from re 0 None s.

(** [m.group(1)] *)
Definition group1 (m : nat * span) : list N :=
  match snd (snd m) with Some c => [c] | None => [] end.

(** [re.sub(re, '', s)]: the matches found left to right, none
    overlapping, are left out; [skip] counts the characters of the
    current match still to pass.  An empty match replaces nothing by
    nothing. *)
Fixpoint sub_from (re : regex) (skip : nat) (prev : option N) (s : list N)
    : list N :=
  match s with
  | [] => []
  | x :: s' =>
      match skip with
      | S n => sub_from re n (Some x) s'
      | O =>
          match match_here re None prev s with
          | Some (S n, _) => sub_from re n (Some x) s'
          | _ => x :: sub_from re 0 (Some x) s'
          end
      end
  end.

Definition sub_empty (re : regex) (s : list N) : list N :=
  sub_from re 0 None s.

End matcher.

End Re.

(** *** [common_filters.py] *)

Module common_filters.
Import Py Re.

(** [r'<think>.*?</think>\s*'] with [re.DOTALL] *)
Definition think_block : regex :=
  [Lit (u "<think>"); MinStar CAny; Lit (u "</think>"); MaxStar CSpace].

(** [r'.*?</think>\s*'] with [re.DOTALL] *)
Definition think_close : regex :=
  [MinStar CAny; Lit (u "</think>"); MaxStar CSpace].

(** [r'\b([A-Da-d])\b'] *)
Definition letter_re : regex :=
  [WordBoundary; Group1 (CSet [(65, 68); (97, 100)]); WordBoundary].

(** [r'\b([1-4])\b'] *)
Definition digit_re : regex :=
  [WordBoundary; Group1 (CSet [(49, 52)]); WordBoundary].

(** [str.upper] on the ASCII letters, which are all that group 1 of
    [letter_re] can hold. *)
Definition upper (s : list N) : list N :=
  map (fun c => if in_range 97 122 c then c - 32 else c) s.

Definition num_to_letter : gmap (list N) (list N) :=
  list_to_map [(u "1", u "A"); (u "2", u "B"); (u "3", u "C"); (u "4", u "D")].

Section filters.

Variable isalnum : N -> bool.

(** The two substitutions that open both filters. *)
Definition strip_tags (resp : list N) : list N :=
  let clean := sub_empty isalnum think_block resp in
  sub_empty isalnum think_close clean.

Definition strip_thinking_tags (resps : list (list N)) : list (list N) :=
  fold_left
    (fun cleaned resp =>
       let clean := strip_tags resp in
       cleaned ++ [strip clean])
    resps [].

(** The body of the loop of [extract_answer_letter]: what it appends. *)
Definition answer_of (resp : list N) : list N :=
  let clean := strip_tags resp in
  match search isalnum letter_re clean with
  | Some m => upper (group1 m)
  | None =>
      match search isalnum digit_re clean with
      | Some m => get num_to_letter (group1 m) (group1 m)
      | None => []
      end
  end.

Definition extract_answer_letter (resps : list (list N)) : list (list N) :=
  fold_left (fun results resp => results ++ [answer_of resp]) resps [].

End filters.

End common_filters.

(** *** [groq_proxy.py]: the request normalizer *)

Module groq_proxy.
Import Py.

(** [os.environ[key] = value], [os.environ] being a map from names to
    values: [putenv] refuses an embedded null. *)
Definition setenv (key value : list N) (environ : gmap (list N) (list N))
    : exn + gmap (list N) (list N) :=
  if mem 0 key || mem 0 value then inl ValueError
  else inr (<[key := value]> environ).

(** The body of the loop of [load_env] on one line of the file. *)
Definition load_line (line : list N) (environ : gmap (list N) (list N))
    : exn + gmap (list N) (list N) :=
  let line := strip line in
  if nonempty line && negb (startswith line (u "#")) && contains (u "=") line then
    let '(key, _, value) := partition (u "=") line in
    let key := strip key in
    let value := strip_chars [39] (strip_chars [34] (strip value)) in
    if nonempty key && nonempty value
    then match environ !! key with
         | None => setenv key value environ
         | Some _ => inr environ
         end
    else inr environ
  else inr environ.

(** [for line in f]: the environment it leaves, and the exception that
    ended it, if one did. *)
Fixpoint load_lines (f : list (list N)) (environ : gmap (list N) (list N))
    : gmap (list N) (list N) * option exn :=
  match f with
  | [] => (environ, None)
  | line :: rest =>
      match load_line line environ with
      | inl e => (environ, Some e)
      | inr environ' => load_lines rest environ'
      end
  end.

(** [load_env()]: [env_file] holds the lines of [.env], or [None] when
    the file does not exist. *)
Definition load_env (env_file : option (list (list N)))
    (environ : gmap (list N) (list N)) : gmap (list N) (list N) * option exn :=
  match env_file with
  | Some f => load_lines f environ
  | None => (environ, None)
  end.

(** [--reasoning-effort], one of the [choices] of the parser. *)
Inductive effort := low | medium | high.

Definition effort_str (e : effort) : list N :=
  match e with
  | low => u "low"
  | medium => u "medium"
  | high => u "high"
  end.

(** The class attributes of [GroqProxyHandler], set once by [main]. *)
Record config := {
  reasoning_hidden : bool;
  reasoning_effort : effort
}.

(** What a request comes to: a reply made by [send_error] without any
    call upstream, an exception that leaves the handler (nothing is sent
    and nothing is called), or the call [urlopen(req)] whose request
    carries [json.dumps(data)]. *)
Inductive outcome :=
  | SendError (code : Z)
  | Uncaught (e : exn)
  | Urlopen (data : json).

(** The bodies sent upstream by an outcome. *)
Definition outbound (o : outcome) : list json :=
  match o with
  | Urlopen data => [data]
  | _ => []
  end.

(** The status of the reply the handler itself wrote, if it wrote one
    before any call upstream. *)
Definition replied (o : outcome) : option Z :=
  match o with
  | SendError code => Some code
  | _ => None
  end.

(** The body of the loop over [data["messages"]]. *)
Definition clean_message (msg : json) : exn + json :=
  match msg with
  | JObj m =>
      let cleaned_msg : gmap (list N) json :=
        <[u "content" := get m (u "content") (JStr (u ""))]>
          (<[u "role" := get m (u "role") (JStr (u "user"))]> ∅) in
      match m !! u "name" with
      | Some name =>
          if truthy name then inr (JObj (<[u "name" := name]> cleaned_msg))
          else inr (JObj cleaned_msg)
      | None => inr (JObj cleaned_msg)
      end
  | _ => inl AttributeError
  end.

Fixpoint clean_loop (msgs cleaned_messages : list json) : exn + list json :=
  match msgs with
  | [] => inr cleaned_messages
  | msg :: rest =>
      match clean_message msg with
      | inl e => inl e
      | inr cleaned_msg => clean_loop rest (cleaned_messages ++ [cleaned_msg])
      end
  end.

Section handler.

Variable json_decode : list N -> exn + json.
Variable wide_decode : encoding -> list N -> option (list N).
Variable cfg : config.
Variable environ : gmap (list N) (list N).

(** Lines 60 to 71: [if "messages" in data: ...]. *)
Definition transform_messages (data : json) : exn + json :=
  match data with
  | JObj d =>
      match d !! u "messages" with
      | Some messages =>
          match iterate messages with
          | inl e => inl e
          | inr msgs =>
              match clean_loop msgs [] with
              | inl e => inl e
              | inr cleaned_messages =>
                  inr (JObj (<[u "messages" := JArr cleaned_messages]> d))
              end
          end
      | None => inr data
      end
  | JArr l => if existsb (is_str (u "messages")) l then inl TypeError else inr data
  | JStr s => if contains (u "messages") s then inl TypeError else inr data
  | _ => inl TypeError
  end.

(** Lines 73 to 76: the reasoning parameters. *)
Definition add_reasoning (data : json) : exn + json :=
  if reasoning_hidden cfg then
    match data with
    | JObj d =>
        inr (JObj (<[u "reasoning_effort" := JStr (effort_str (reasoning_effort cfg))]>
                     (<[u "reasoning_format" := JStr (u "hidden")]> d)))
    | _ => inl TypeError
    end
  else inr data.

(** Lines 78 to 80: the two [pop] calls. *)
Definition remove_unsupported (data : json) : exn + json :=
  match data with
  | JObj d => inr (JObj (pop (u "extra_body") (pop (u "tokenized_requests") d)))
  | JArr _ => inl TypeError
  | _ => inl AttributeError
  end.

Definition transform (data : json) : exn + json :=
  match transform_messages data with
  | inl e => inl e
  | inr data =>
      match add_reasoning data with
      | inl e => inl e
      | inr data => remove_unsupported data
      end
  end.

(** [do_POST], from the path test to the call upstream; [body] is what
    [self.rfile.read(content_length)] returned. *)
Definition do_POST (path : list N) (body : list N) : outcome :=
  if negb (endswith path (u "/chat/completions")) then SendError 404
  else
    match loads json_decode wide_decode body with
    | inl JSONDecodeError => SendError 400
    | inl e => Uncaught e
    | inr data =>
        match transform data with
        | inl e => Uncaught e
        | inr data =>
            if nonempty (get environ (u "GROQ_API_KEY") (u ""))
            then Urlopen data
            else SendError 500
        end
    end.

(** [BaseHTTPRequestHandler.handle_one_request] calls the method
    [do_<command>] of the handler and answers 501 when the class has
    none; [GroqProxyHandler] defines [do_POST] alone. *)
Definition handle (command path body : list N) : outcome :=
  if bool_decide (command = u "POST") then do_POST path body
  else SendError 501.

End handler.

End groq_proxy.

(** *** [reasoning_proxy.py]: the response normalizer *)

Module reasoning_proxy.
Import Py.

Definition markers : list (list N) :=
  [u "</think>"; u "</reasoning>"; u "**Answer:**"; u "Answer:"].

Definition set_content (content : list N) (message : gmap (list N) json)
    : gmap (list N) json :=
  <[u "content" := JStr content]> message.

(** Lines 65 to 70: the loop over the markers, which sets
    [message['content']] and breaks at the first marker that is in
    [reasoning] and has text after it. *)
Fixpoint marker_loop (ms : list (list N)) (reasoning : list N)
    (message : gmap (list N) json) : gmap (list N) json :=
  match ms with
  | [] => message
  | marker :: rest =>
      if contains marker reasoning then
        let parts := split1 marker reasoning in
        match parts !! 1%nat with
        | Some after =>
            if nonempty (strip after) then set_content (strip after) message
            else marker_loop rest reasoning message
        | None => marker_loop rest reasoning message
        end
      else marker_loop rest reasoning message
  end.

(** Line 75: the stripped lines of [reasoning] that are not empty. *)
Definition nonempty_lines (reasoning : list N) : list (list N) :=
  map strip
    (List.filter (fun l => nonempty (strip l)) (split_char 10 (strip reasoning))).

(** Lines 73 to 79. *)
Definition fallback (reasoning : list N) (message : gmap (list N) json)
    : gmap (list N) json :=
  if negb (truthy (get message (u "content") JNull)) then
    let lines := nonempty_lines reasoning in
    match last lines with
    | Some l => set_content l message
    | None => set_content reasoning message
    end
  else message.

(** Lines 60 to 79: what the loop body does to [message].  A
    [reasoning_content] that is true but no string makes [in], [split] or
    [strip] raise. *)
Definition fill_content (message : gmap (list N) json)
    : exn + gmap (list N) json :=
  if negb (truthy (get message (u "content") JNull))
     && truthy (get message (u "reasoning_content") JNull)
  then
    match get message (u "reasoning_content") JNull with
    | JStr reasoning =>
        inr (fallback reasoning (marker_loop markers reasoning message))
    | JArr _ | JObj _ => inl AttributeError
    | _ => inl TypeError
    end
  else inr message.

(** The body of the loop over the choices.  [message] is the dict stored
    in [choice], so what is assigned to it shows in [choice]; when the
    key is absent [message] is a fresh empty dict, which the test leaves
    alone. *)
Definition normalize_choice (choice : json) : exn + json :=
  match choice with
  | JObj c =>
      match get c (u "message") (JObj ∅) with
      | JObj message =>
          match fill_content message with
          | inl e => inl e
          | inr message' =>
              match c !! u "message" with
              | Some _ => inr (JObj (<[u "message" := JObj message']> c))
              | None => inr choice
              end
          end
      | _ => inl AttributeError
      end
  | _ => inl AttributeError
  end.

Fixpoint choices_loop (choices : list json) : exn + list json :=
  match choices with
  | [] => inr []
  | choice :: rest =>
      match normalize_choice choice with
      | inl e => inl e
      | inr choice' =>
          match choices_loop rest with
          | inl e => inl e
          | inr rest' => inr (choice' :: rest')
          end
      end
  end.

(** Lines 55 to 79: [if 'choices' in response_data: ...].  Only a list
    has elements that the loop can change; a string or a dict of keys
    gives the loop strings, on which [choice.get] raises. *)
Definition normalize (response_data : json) : exn + json :=
  match response_data with
  | JObj d =>
      match d !! u "choices" with
      | Some choices =>
          match iterate choices with
          | inl e => inl e
          | inr cs =>
              match choices_loop cs with
              | inl e => inl e
              | inr cs' =>
                  match choices with
                  | JArr _ => inr (JObj (<[u "choices" := JArr cs']> d))
                  | _ => inr response_data
                  end
              end
          end
      | None => inr response_data
      end
  | JArr l => if existsb (is_str (u "choices")) l then inl TypeError else inr response_data
  | JStr s => if contains (u "choices") s then inl TypeError else inr response_data
  | _ => inl TypeError
  end.

(** What the proxy writes to its client once upstream has answered 200. *)
Inductive reply :=
  | Relay (status : Z) (data : json)    (* the body is [json.dumps(data)] *)
  | ErrorReply (status : Z) (e : exn).  (* the body is [{"error": str(e)}] *)

Section handler.

Variable json_decode : list N -> exn + json.
Variable wide_decode : encoding -> list N -> option (list N).

(** Lines 51 to 87 and the handler of line 94. *)
Definition on_response (response_body : list N) : reply :=
  match loads json_decode wide_decode response_body with
  | inl e => ErrorReply 500 e
  | inr response_data =>
      match normalize response_data with
      | inl e => ErrorReply 500 e
      | inr response_data => Relay 200 response_data
      end
  end.

End handler.

End reasoning_proxy.

(** *** Vocabulary of the specification of the filters *)

Module filter_spec.
Import Py Re.

(** [str.isalnum] on the ASCII range. *)
Definition ascii_alnum (c : N) : bool :=
  in_range 48 57 c || in_range 65 90 c || in_range 97 122 c.

(** The table agrees with ASCII on the ASCII range. *)
Definition ascii_table (isalnum : N -> bool) : Prop :=
  forall c, c < 128 -> isalnum c = ascii_alnum c.

Section vocabulary.

Variable isalnum : N -> bool.

(** Nothing, or a character that is not a word character. *)
Definition non_word (o : option N) : Prop :=
  match o with
  | Some c => isword isalnum c = false
  | None => True
  end.

(** The character before position [i] of [s], [prev] being the one
    before [s]. *)
Definition before (prev : option N) (s : list N) (i : nat) : option N :=
  match i with
  | O => prev
  | S j => s !! j
  end.

(** Position [i] of [s] holds [c], one of [chars], with no word
    character on either side. *)
Definition standalone_from (prev : option N) (chars s : list N) (i : nat) (c : N)
    : Prop :=
  s !! i = Some c /\ c ∈ chars
  /\ non_word (before prev s i) /\ non_word (s !! S i).

Definition standalone (chars s : list N) (i : nat) (c : N) : Prop :=
  standalone_from None chars s i c.

(** [c] is the first standalone character of [s] among [chars]. *)
Definition first_standalone (chars s : list N) (c : N) : Prop :=
  exists i, standalone chars s i c
            /\ forall j d, (j < i)%nat -> ~ standalone chars s j d.

Definition no_standalone (chars s : list N) : Prop :=
  forall i c, ~ standalone chars s i c.

(** What the claim says of the answer drawn from the cleaned text: the
    first standalone letter A to D of either case, in upper case;
    failing that the first standalone digit 1 to 4, as its letter;
    failing that the empty string. *)
Inductive answer_spec (clean : list N) : list N -> Prop :=
  | answer_letter c L :
      first_standalone (u "ABCDabcd") clean c ->
      (c, L) ∈ zip (u "ABCDabcd") (u "ABCDABCD") ->
      answer_spec clean [L]
  | answer_digit c L :
      no_standalone (u "ABCDabcd") clean ->
      first_standalone (u "1234") clean c ->
      (c, L) ∈ zip (u "1234") (u "ABCD") ->
      answer_spec clean [L]
  | answer_empty :
      no_standalone (u "ABCDabcd") clean ->
      no_standalone (u "1234") clean ->
      answer_spec clean [].

End vocabulary.

(** Two tables say the same of [c], or of the character [o] if any. *)
Definition same_at (f g : N -> bool) (c : N) : Prop := f c = g c.

Definition same_opt (f g : N -> bool) (o : option N) : Prop :=
  match o with Some c => same_at f g c | None => True end.

(** The table of a reader that knows the ASCII letters and digits and the
    Cyrillic block. *)
Definition sample_isalnum (c : N) : bool :=
  ascii_alnum c || in_range 0x400 0x4ff c.

End filter_spec.

(** *** Vocabulary of the specification of the request normalizer *)

Module groq_spec.
Import Py groq_proxy.

(** The message has a name that counts as true. *)
Definition named (m : gmap (list N) json) : bool :=
  match m !! u "name" with
  | Some name => truthy name
  | None => false
  end.

(** [c] is what the claim says must be forwarded for the message [m]:
    the keys role and content, and name exactly when [m] is named; role and
    content as in [m], or their defaults; name as in [m]. *)
Definition cleaned_from (m c : gmap (list N) json) : Prop :=
  dom c = {[u "role"; u "content"]} ∪ (if named m then {[u "name"]} else ∅)
  /\ c !! u "role"
     = Some (match m !! u "role" with Some r => r | None => JStr (u "user") end)
  /\ c !! u "content"
     = Some (match m !! u "content" with Some r => r | None => JStr (u "") end)
  /\ c !! u "name" = (if named m then m !! u "name" else None).

(** What lines 73 to 80 make of a dict. *)
Definition finish (cfg : config) (d : gmap (list N) json) : gmap (list N) json :=
  pop (u "extra_body")
    (pop (u "tokenized_requests")
       (if reasoning_hidden cfg
        then <[u "reasoning_effort" := JStr (effort_str (reasoning_effort cfg))]>
               (<[u "reasoning_format" := JStr (u "hidden")]> d)
        else d)).

(** A decoder that knows one text. *)
Definition decode_only (text : list N) (data : json) (s : list N) : exn + json :=
  if bool_decide (s = text) then inr data else inl JSONDecodeError.

(** No codec beyond UTF-8. *)
Definition no_wide (e : encoding) (b : list N) : option (list N) := None.

(** A JSON string literal without escapes. *)
Definition quoted (s : string) : list N := [34] ++ u s ++ [34].

(** A request body, as text and as the value it denotes: one message with
    a field of the caller's own and an empty name, and two fields that the
    upstream refuses. *)
Definition sample_text : list N :=
  u "{" ++ quoted "messages" ++ u ":[{" ++ quoted "role" ++ u ":"
    ++ quoted "system" ++ u "," ++ quoted "content" ++ u ":" ++ quoted "hi"
    ++ u "," ++ quoted "name" ++ u ":" ++ quoted "" ++ u ","
    ++ quoted "weight" ++ u ":1}]," ++ quoted "extra_body" ++ u ":{},"
    ++ quoted "tokenized_requests" ++ u ":true}".

Definition sample_message : gmap (list N) json :=
  <[u "role" := JStr (u "system")]>
    (<[u "content" := JStr (u "hi")]>
       (<[u "name" := JStr (u "")]> (<[u "weight" := JInt 1]> ∅))).

Definition sample_dict : gmap (list N) json :=
  <[u "messages" := JArr [JObj sample_message]]>
    (<[u "extra_body" := JObj ∅]>
       (<[u "tokenized_requests" := JBool true]> ∅)).

Definition sample_cfg : config :=
  {| reasoning_hidden := true; reasoning_effort := medium |}.

Definition sample_environ : gmap (list N) (list N) :=
  <[u "GROQ_API_KEY" := u "gsk_test"]> ∅.

Definition sample_path : list N := u "/v1/chat/completions".

(** What goes upstream for the sample request under the sample
    configuration. *)
Definition sample_forwarded : json :=
  JObj (<[u "messages" :=
            JArr [JObj (<[u "role" := JStr (u "system")]>
                          (<[u "content" := JStr (u "hi")]> ∅))]]>
          (<[u "reasoning_format" := JStr (u "hidden")]>
             (<[u "reasoning_effort" := JStr (u "medium")]> ∅))).

End groq_spec.

(** *** Vocabulary of the specification of [load_env] *)

Module env_spec.
Import Py.

(** [s] has no character of [p] at either end. *)
Definition bare (p : N -> bool) (s : list N) : Prop :=
  (forall c, head s = Some c -> p c = false)
  /\ (forall c, last s = Some c -> p c = false).

(** A key as one writes it: not empty, without [=] or a null, without
    blanks at its ends, not opening a comment. *)
Definition plain_key (key : list N) : Prop :=
  key <> [] /\ (61 ∉ key) /\ (0 ∉ key) /\ bare isspace key /\ head key <> Some 35.

(** A value as one writes it between quotes: not empty, without a null,
    with no quote of either kind at its ends. *)
Definition plain_value (v : list N) : Prop :=
  v <> [] /\ (0 ∉ v) /\ bare (fun c => mem c [34; 39]) v.

(** The double and the single quote. *)
Definition is_quote (q : N) : Prop := q = 34 \/ q = 39.

End env_spec.

(** *** Vocabulary of the specification of the response normalizer *)

Module reasoning_spec.
Import Py reasoning_proxy.

(** What a marker yields: the trimmed text after its first occurrence in
    [reasoning], when there is an occurrence and that text is not empty. *)
Definition marker_answer (reasoning marker : list N) : option (list N) :=
  match find_split marker reasoning with
  | Some (_, after) => if nonempty (strip after) then Some (strip after) else None
  | None => None
  end.

(** The yield of the first marker, in the order of priority, that yields
    anything. *)
Definition first_answer (reasoning : list N) : option (list N) :=
  head (omap (marker_answer reasoning) markers).

(** The lines of [s], trimmed, without the empty ones. *)
Definition trimmed_lines (s : list N) : list (list N) :=
  List.filter nonempty (map strip (split_char 10 s)).

(** The replacement content as the claim words it: with no marker and no
    line, the trimmed reasoning. *)
Definition claimed_content (reasoning : list N) : list N :=
  match first_answer reasoning with
  | Some answer => answer
  | None =>
      match last (trimmed_lines reasoning) with
      | Some line => line
      | None => strip reasoning
      end
  end.

(** The same with the reasoning as it is in the last case. *)
Definition derived_content (reasoning : list N) : list N :=
  match first_answer reasoning with
  | Some answer => answer
  | None =>
      match last (trimmed_lines reasoning) with
      | Some line => line
      | None => reasoning
      end
  end.

(** [sep.join(lines)] for a separator of one character. *)
Fixpoint join (sep : N) (lines : list (list N)) : list N :=
  match lines with
  | [] => []
  | [l] => l
  | l :: ls => l ++ sep :: join sep ls
  end.

(** A message and the choice and response that carry it. *)
Definition message_of (content reasoning : list N) : gmap (list N) json :=
  <[u "content" := JStr content]>
    (<[u "reasoning_content" := JStr reasoning]> ∅).

Definition choice_of (message : gmap (list N) json) : json :=
  JObj (<[u "index" := JInt 0]> (<[u "message" := JObj message]> ∅)).

Definition response_dict (choices : list json) : gmap (list N) json :=
  <[u "id" := JStr (u "cmpl-1")]> (<[u "choices" := JArr choices]> ∅).

Definition response_of (choices : list json) : json :=
  JObj (response_dict choices).

(** A reasoning of two lines, the second with a marker. *)
Definition sample_reasoning : list N :=
  u "thinking" ++ [10] ++ u "Answer: B" ++ [10].

(** Two choices sent by upstream, the first with a content, and what is
    relayed for them. *)
Definition sample_choices : list json :=
  [choice_of (message_of (u "B") (u "x </think> C"));
   choice_of (message_of (u "") (u "x </think> C"))].

Definition sample_relayed : json :=
  response_of [choice_of (message_of (u "B") (u "x </think> C"));
               choice_of (message_of (u "C") (u "x </think> C"))].

End reasoning_spec.

(** *** [groq_proxy.py]: the relay of the upstream answer, and [main] *)

Module groq_server.
Import Py groq_proxy.

(** [b.decode("utf-8")] with the default, strict error handler: [None]
    when it raises [UnicodeDecodeError].  Unlike [utf8_decode] it refuses
    the three-byte forms of surrogates. *)
Fixpoint utf8_strict_decode (b : list N) : option (list N) :=
  match b with
  | [] => Some []
  | c0 :: r0 =>
    if c0 <? 0x80 then cons c0 <$> utf8_strict_decode r0
    else if in_range 0xc2 0xdf c0 then
      match r0 with
      | c1 :: r1 =>
          if is_cont c1
          then cons ((c0 - 0xc0) * 64 + cont c1) <$> utf8_strict_decode r1
          else None
      | _ => None
      end
    else if in_range 0xe0 0xef c0 then
      match r0 with
      | c1 :: c2 :: r2 =>
          if is_cont c1 && is_cont c2 && negb ((c0 =? 0xe0) && (c1 <? 0xa0))
             && negb ((c0 =? 0xed) && (0x9f <? c1))
          then cons ((c0 - 0xe0) * 4096 + cont c1 * 64 + cont c2)
                 <$> utf8_strict_decode r2
          else None
      | _ => None
      end
    else if in_range 0xf0 0xf4 c0 then
      match r0 with
      | c1 :: c2 :: c3 :: r3 =>
          if is_cont c1 && is_cont c2 && is_cont c3
             && negb ((c0 =? 0xf0) && (c1 <? 0x90))
             && negb ((c0 =? 0xf4) && (0x8f <? c1))
          then cons ((c0 - 0xf0) * 262144 + cont c1 * 4096
                     + cont c2 * 64 + cont c3)
                 <$> utf8_strict_decode r3
          else None
      | _ => None
      end
    else None
  end.

(** The UTF-8 form of one code point; surrogates and values above
    U+10FFFF have none. *)
Definition encode_point (c : N) : option (list N) :=
  if c <? 0x80 then Some [c]
  else if c <? 0x800 then Some [0xc0 + c / 64; 0x80 + c mod 64]
  else if c <? 0x10000 then
    if in_range 0xd800 0xdfff c then None
    else Some [0xe0 + c / 4096; 0x80 + (c / 64) mod 64; 0x80 + c mod 64]
  else if c <? 0x110000 then
    Some [0xf0 + c / 262144; 0x80 + (c / 4096) mod 64;
          0x80 + (c / 64) mod 64; 0x80 + c mod 64]
  else None.

(** [s.encode("utf-8")]: [None] when it raises [UnicodeEncodeError]. *)
Fixpoint utf8_encode (s : list N) : option (list N) :=
  match s with
  | [] => Some []
  | c :: s' =>
      match encode_point c, utf8_encode s' with
      | Some b, Some r => Some (b ++ r)
      | _, _ => None
      end
  end.

(** What [urllib.request.urlopen(req, timeout=120)] comes to: a response
    whose body is read, an [HTTPError] with its status and body, or any
    other exception. *)
Inductive upstream :=
  | Responded (response_body : list N)
  | HTTPError (code : Z) (error_body : list N)
  | Failed.

(** What the handler writes to its client: a response with a status and a
    body (the content type is always [application/json]), the error page
    of [send_error], or nothing when an exception leaves the handler. *)
Inductive written :=
  | Response (status : Z) (body : list N)
  | ErrorPage (code : Z)
  | NoReply.

(** Lines 102 to 118. *)
Definition relay (r : upstream) : written :=
  match r with
  | Responded response_body => Response 200 response_body
  | HTTPError code raw =>
      match utf8_strict_decode raw with
      | Some error_body =>
          match utf8_encode error_body with
          | Some b => Response code b
          | None => NoReply
          end
      | None => NoReply
      end
  | Failed => ErrorPage 500
  end.

Section server.

Variable json_decode : list N -> exn + json.
Variable wide_decode : encoding -> list N -> option (list N).

(** The whole of [do_POST], [urlopen] answering each forwarded body as
    upstream would. *)
Definition serve (cfg : config) (environ : gmap (list N) (list N))
    (urlopen : json -> upstream) (path body : list N) : written :=
  match do_POST json_decode wide_decode cfg environ path body with
  | SendError code => ErrorPage code
  | Uncaught _ => NoReply
  | Urlopen data => relay (urlopen data)
  end.

End server.

(** What [main] comes to: the server runs with the class attributes and
    the environment it has set, or [main] prints that the key is missing
    and returns, or an exception of [load_env] ends it. *)
Inductive started :=
  | Serving (cfg : config) (environ : gmap (list N) (list N))
  | Refused
  | Crashed (e : exn).

(** [main()], given the lines of [.env] and the parsed arguments. *)
Definition main (env_file : option (list (list N)))
    (args_reasoning_hidden : bool) (args_reasoning_effort : effort)
    (environ : gmap (list N) (list N)) : started :=
  match load_env env_file environ with
  | (_, Some e) => Crashed e
  | (environ, None) =>
      if nonempty (get environ (u "GROQ_API_KEY") (u ""))
      then Serving {| reasoning_hidden := args_reasoning_hidden;
                      reasoning_effort := args_reasoning_effort |} environ
      else Refused
  end.

End groq_server.

(** *** More sample requests *)

Module groq_samples.
Import Py groq_proxy groq_spec.

(** A request that names a model. *)
Definition model_text : list N :=
  u "{" ++ quoted "model" ++ u ":" ++ quoted "llama" ++ u ","
    ++ quoted "messages" ++ u ":[]}".

Definition model_dict : gmap (list N) json :=
  <[u "model" := JStr (u "llama")]> (<[u "messages" := JArr []]> ∅).

Definition model_forwarded : json :=
  JObj (<[u "model" := JStr (u "llama")]>
          (<[u "messages" := JArr []]>
             (<[u "reasoning_format" := JStr (u "hidden")]>
                (<[u "reasoning_effort" := JStr (u "medium")]> ∅)))).

(** A request whose one message is a string. *)
Definition bare_text : list N :=
  u "{" ++ quoted "messages" ++ u ":[" ++ quoted "hi" ++ u "]}".

Definition bare_dict : gmap (list N) json :=
  <[u "messages" := JArr [JStr (u "hi")]]> ∅.

End groq_samples.

(** *** [reasoning_proxy.py]: the request, the relay, and [main] *)

Module reasoning_server.
Import Py reasoning_proxy groq_server.

(** The class attributes of [ReasoningProxyHandler], set once by [main]. *)
Record settings := {
  target_base_url : list N;
  api_key : list N
}.

(** [s.rstrip(chars)] *)
Definition rstrip_chars (chars s : list N) : list N :=
  rstrip_by (fun c => mem c chars) s.

(** Lines 111 and 112 of [main]: [args.target.rstrip('/')] and
    [args.api_key or os.environ.get('OPENAI_API_KEY', '')]. *)
Definition main_settings (args_target : list N) (args_api_key : option (list N))
    (environ : gmap (list N) (list N)) : settings :=
  {| target_base_url := rstrip_chars (u "/") args_target;
     api_key :=
       match args_api_key with
       | Some k => if nonempty k then k else get environ (u "OPENAI_API_KEY") (u "")
       | None => get environ (u "OPENAI_API_KEY") (u "")
       end |}.

(** The request that [do_POST] sends upstream. *)
Record request := {
  url : list N;
  authorization : list N;
  data : list N
}.

(** Lines 26 to 43: [authorization_header] is the header of the inbound
    request, if it has one. *)
Definition build_request (s : settings) (path : list N)
    (authorization_header : option (list N)) (body : list N) : request :=
  {| url := target_base_url s ++ path;
     authorization :=
       match authorization_header with
       | Some a => a
       | None => u "Bearer " ++ api_key s
       end;
     data := body |}.

(** What the handler writes: a status with the JSON text of a value, a
    status with bytes as they came, or a status with a JSON object that
    names an error. *)
Inductive sent :=
  | SentJson (status : Z) (value : json)
  | SentRaw (status : Z) (body : list N)
  | SentError (status : Z).

Section handler.

Variable json_decode : list N -> exn + json.
Variable wide_decode : encoding -> list N -> option (list N).

(** Lines 50 to 98, for each thing [urlopen] can come to. *)
Definition respond (up : upstream) : sent :=
  match up with
  | Responded response_body =>
      match on_response json_decode wide_decode response_body with
      | Relay status value => SentJson status value
      | ErrorReply status _ => SentError status
      end
  | HTTPError code raw => SentRaw code raw
  | Failed => SentError 500
  end.

End handler.

End reasoning_server.

(** *** More vocabulary for the response normalizer *)

Module normalizer_spec.
Import Py reasoning_proxy.

(** A choice on which the loop raises: it is no object, or its message is
    no object, or its message has no usable content and a
    reasoning_content that counts as true and is no string. *)
Definition malformed (choice : json) : Prop :=
  (forall c, choice <> JObj c)
  \/ (exists (c : gmap (list N) json) v,
        choice = JObj c /\ c !! u "message" = Some v
        /\ forall m, v <> JObj m)
  \/ (exists (c m : gmap (list N) json) r,
        choice = JObj c /\ c !! u "message" = Some (JObj m)
        /\ truthy (get m (u "content") JNull) = false
        /\ m !! u "reasoning_content" = Some r
        /\ truthy r = true /\ forall s, r <> JStr s).

(** [c'] is [c] but for the content of its message. *)
Definition same_but_content (c c' : gmap (list N) json) : Prop :=
  (forall k, k <> u "message" -> c' !! k = c !! k)
  /\ match c !! u "message" with
     | Some (JObj m) =>
         exists m' : gmap (list N) json,
           c' !! u "message" = Some (JObj m')
           /\ forall k, k <> u "content" -> m' !! k = m !! k
     | other => c' !! u "message" = other
     end.

(** A choice whose message has a reasoning_content that counts as true
    has a content that counts as true. *)
Definition answered (choice : json) : Prop :=
  forall (c m : gmap (list N) json),
    choice = JObj c -> c !! u "message" = Some (JObj m) ->
    truthy (get m (u "reasoning_content") JNull) = true ->
    truthy (get m (u "content") JNull) = true.

(** A response with one choice that is a string, as a value and as
    text. *)
Definition broken_choices : list json :=
  [reasoning_spec.choice_of (reasoning_spec.message_of (u "B") (u "x"));
   JStr (u "oops")].

Definition broken_text : list N :=
  u "{" ++ groq_spec.quoted "id" ++ u ":" ++ groq_spec.quoted "cmpl-1" ++ u ","
    ++ groq_spec.quoted "choices" ++ u ":[{" ++ groq_spec.quoted "index"
    ++ u ":0," ++ groq_spec.quoted "message" ++ u ":{"
    ++ groq_spec.quoted "content" ++ u ":" ++ groq_spec.quoted "B" ++ u ","
    ++ groq_spec.quoted "reasoning_content" ++ u ":" ++ groq_spec.quoted "x"
    ++ u "}}," ++ groq_spec.quoted "oops" ++ u "]}".

End normalizer_spec.

(** *** The benchmark utilities *)

From Stdlib Require DecimalString.

Module bench.
Import Py.

(** The [str] written by a literal of the source that is not ASCII: the
    source files are UTF-8. *)
Definition uk (s : string) : list N := default [] (utf8_decode (u s)).

(** [str(n)] for an [int]. *)
Definition str_int (z : Z) : list N :=
  u (DecimalString.NilZero.string_of_int (Z.to_int z)).

(** [sep.join(lines)] *)
Fixpoint join (sep : list N) (lines : list (list N)) : list N :=
  match lines with
  | [] => []
  | [l] => l
  | l :: ls => l ++ sep ++ join sep ls
  end.

(** The exceptions of the utilities. *)
Inductive error := KeyError | ValueError | IndexError.

(** [l[i]] for a list and an [int]: a negative index counts from the
    end. *)
Definition item {A} (l : list A) (i : Z) : error + A :=
  let n := Z.of_nat (length l) in
  let j := if (i <? 0)%Z then (i + n)%Z else i in
  if (j <? 0)%Z then inl IndexError
  else match l !! Z.to_nat j with
       | Some x => inr x
       | None => inl IndexError
       end.

(** [s.index(sub)] *)
Definition index (s sub : list N) : error + nat :=
  match find_split sub s with
  | Some (a, _) => inr (length a)
  | None => inl ValueError
  end.

(** [s.replace(old, new)]: the occurrences of [old] found left to right,
    none overlapping, become [new]; [skip] counts the characters of the
    current occurrence still to pass. *)
Fixpoint replace_from (old new : list N) (skip : nat) (s : list N) : list N :=
  match s with
  | [] => []
  | x :: s' =>
      match skip with
      | S n => replace_from old new n s'
      | O =>
          if startswith s old
          then new ++ replace_from old new (length old - 1) s'
          else x :: replace_from old new 0 s'
      end
  end.

(** An empty [old] puts [new] before every character and at the end. *)
Definition replace (old new s : list N) : list N :=
  match old with
  | [] => new ++ flat_map (fun c => c :: new) s
  | _ :: _ => replace_from old new 0 s
  end.

End bench.

(** *** [winogrande_uk/preprocess_winogrande.py] *)

Module preprocess_winogrande.
Import Py bench.

(** A row of the dataset: its columns are strings. *)
Record doc := {
  sentence : list N;
  option1 : list N;
  option2 : list N;
  answer : list N
}.

Definition answer_to_num : gmap (list N) Z :=
  list_to_map [(u "1", 0%Z); (u "2", 1%Z)].

Definition answer_to_letter : gmap (list N) (list N) :=
  list_to_map [(u "1", u "A"); (u "2", u "B")].

(** [d[k]] *)
Definition at_key {V} (d : gmap (list N) V) (k : list N) : error + V :=
  match d !! k with
  | Some v => inr v
  | None => inl KeyError
  end.

Definition doc_to_text (d : doc) : error + Z :=
  at_key answer_to_num (answer d).

Definition doc_to_target (d : doc) : error + list N :=
  match index (sentence d) (u "_") with
  | inl e => inl e
  | inr i => let idx := (i + 1)%nat in inr (strip (drop idx (sentence d)))
  end.

Definition doc_to_choice (d : doc) : error + list (list N) :=
  match index (sentence d) (u "_") with
  | inl e => inl e
  | inr idx =>
      let options := [option1 d; option2 d] in
      inr (map (fun opt => take idx (sentence d) ++ opt) options)
  end.

Definition doc_to_text_generate (d : doc) : list N :=
  uk "Заповніть пропуск (_) у реченні правильним варіантом:" ++ [10; 10]
    ++ uk "Речення: " ++ sentence d ++ [10; 10]
    ++ u "A. " ++ option1 d ++ [10]
    ++ u "B. " ++ option2 d ++ [10; 10]
    ++ uk "Відповідь:".

Definition doc_to_target_generate (d : doc) : error + list N :=
  at_key answer_to_letter (answer d).

End preprocess_winogrande.

(** *** [hellaswag_uk/utils.py] *)

Module hellaswag.
Import Py Re bench.

(** ["\\[.*?\\]"], without [re.DOTALL]: the dot is any character but
    the newline. *)
Definition bracket_re : regex :=
  [Lit (u "["); MinStar (CSet [(0, 9); (11, 0x10ffff)]); Lit (u "]")].

Section text.

Variable isalnum : N -> bool.

Definition preprocess (text : list N) : list N :=
  let text := strip text in
  let text := replace (u " [title]") (u ". ") text in
  let text := sub_empty isalnum bracket_re text in
  let text := replace (u "  ") (u " ") text in
  text.

End text.

(** A document as [_process_doc] makes it. *)
Record doc := {
  query : list N;
  choices : list (list N);
  gold : Z;
  label : Z
}.

Definition options : list (list N) := [u "A"; u "B"; u "C"; u "D"].

(** [zip(a, b)], which stops with the shorter. *)
Definition zip {A B} (a : list A) (b : list B) : list (A * B) := combine a b.

(** The list whose lines make [choices_text]. *)
Definition choice_lines (d : doc) : list (list N) :=
  map (fun oc => fst oc ++ u ". " ++ snd oc) (zip options (choices d)).

Definition doc_to_text_generate (d : doc) : list N :=
  let choices_text := join [10] (choice_lines d) in
  query d ++ [10; 10]
    ++ uk "Оберіть найкращий варіант продовження:" ++ [10]
    ++ choices_text ++ [10; 10]
    ++ uk "Відповідь:".

Definition doc_to_target_generate (d : doc) : error + list N :=
  item options (gold d).

End hellaswag.

(** *** [arc-easy_uk/utils.py] *)

Module arc_easy.
Import Py bench.

(** A row of the dataset; [choices_text] and [choices_label] are the two
    lists under [doc["choices"]]. *)
Record doc := {
  question : list N;
  choices_text : list (list N);
  choices_label : list (list N);
  answerKey : list N
}.

Definition choice_lines (d : doc) : list (list N) :=
  map (fun lc => fst lc ++ u ". " ++ snd lc)
    (hellaswag.zip (choices_label d) (choices_text d)).

Definition doc_to_text_arc (d : doc) : list N :=
  uk "Питання: " ++ question d ++ [10; 10]
    ++ join [10] (choice_lines d) ++ [10; 10]
    ++ uk "Відповідь:".

Definition doc_to_target_arc (d : doc) : list N := answerKey d.

End arc_easy.

(** *** [belebele_uk/utils.py] *)

Module belebele.
Import Py bench.

(** The number of the correct answer: an [int], or its text. *)
Inductive number :=
  | AsInt (z : Z)
  | AsText (s : list N).

(** [str(v)] *)
Definition str (v : number) : list N :=
  match v with
  | AsInt z => str_int z
  | AsText s => s
  end.

(** A row of the dataset. *)
Record doc := {
  flores_passage : list N;
  question : list N;
  mc_answer1 : list N;
  mc_answer2 : list N;
  mc_answer3 : list N;
  mc_answer4 : list N;
  correct_answer_num : number
}.

(** [enumerate(l)] *)
Definition enumerate {A} (l : list A) : list (Z * A) :=
  imap (fun i x => (Z.of_nat i, x)) l.

Definition answer_lines (d : doc) : list (list N) :=
  let answers := [mc_answer1 d; mc_answer2 d; mc_answer3 d; mc_answer4 d] in
  map (fun ia => str_int (fst ia + 1) ++ u ". " ++ snd ia) (enumerate answers).

Definition doc_to_text (d : doc) : list N :=
  let choices_text := join [10] (answer_lines d) in
  uk "Уривок: " ++ flores_passage d ++ [10; 10]
    ++ uk "Питання: " ++ question d ++ [10; 10]
    ++ choices_text ++ [10; 10]
    ++ uk "Відповідь (введіть номер 1, 2, 3 або 4):".

Definition doc_to_target (d : doc) : list N := str (correct_answer_num d).

End belebele.

(** *** Vocabulary of the specification of the benchmark utilities *)

Module bench_spec.
Import Py Re bench.

(** A character that the dot of a pattern without [re.DOTALL] matches: a
    code point other than the newline. *)
Definition dot_char (c : N) : bool :=
  cmatch (CSet [(0, 9); (11, 0x10ffff)]) c.

(** A closing bracket is ahead on the line: only characters of the dot
    come before it. *)
Fixpoint closes (s : list N) : bool :=
  match s with
  | [] => false
  | c :: t => if c =? 93 then true else if dot_char c then closes t else false
  end.

(** No opening bracket of [s] has its closing bracket ahead on its
    line. *)
Fixpoint no_tag (s : list N) : Prop :=
  match s with
  | [] => True
  | c :: t => (c = 91 -> closes t = false) /\ no_tag t
  end.

(** A sample row of Winogrande. *)
Definition sample_winogrande : preprocess_winogrande.doc :=
  {| preprocess_winogrande.sentence := u "The cup fell off the table because the _ was wet.";
     preprocess_winogrande.option1 := u "cup";
     preprocess_winogrande.option2 := u "table";
     preprocess_winogrande.answer := u "2" |}.

(** A sample document of HellaSwag. *)
Definition sample_hellaswag : hellaswag.doc :=
  {| hellaswag.query := u "Cooking: he takes a pan.";
     hellaswag.choices := [u "He sings."; u "He fries an egg."; u "He sleeps.";
                           u "He runs."; u "He reads."];
     hellaswag.gold := 1;
     hellaswag.label := 1 |}.

(** A sample row of ARC. *)
Definition sample_arc : arc_easy.doc :=
  {| arc_easy.question := u "2 + 2 = ?";
     arc_easy.choices_text := [u "3"; u "4"; u "5"];
     arc_easy.choices_label := [u "A"; u "B"; u "C"];
     arc_easy.answerKey := u "B" |}.

(** A sample row of Belebele. *)
Definition sample_belebele : belebele.doc :=
  {| belebele.flores_passage := u "It rained.";
     belebele.question := u "What fell?";
     belebele.mc_answer1 := u "snow";
     belebele.mc_answer2 := u "rain";
     belebele.mc_answer3 := u "ash";
     belebele.mc_answer4 := u "hail";
     belebele.correct_answer_num := belebele.AsInt 2 |}.

End bench_spec.

(** ** Part II: properties *)

Import Py.

(** Literals of the source are replaced by their code points. *)
Ltac eval_u :=
  repeat match goal with
         | |- context [u ?s] =>
             let v := eval vm_compute in (u s) in change (u s) with v
         | H : context [u ?s] |- _ =>
             let v := eval vm_compute in (u s) in change (u s) with v in H
         end.

(** A closed decidable statement, settled by evaluation. *)
Ltac by_decide :=
  match goal with
  | |- ?P => apply (bool_decide_unpack P); vm_compute; exact I
  end.

(** Membership in a list that is written out, as a disjunction. *)
Ltac elem_cases := rewrite ?elem_of_cons, ?elem_of_nil.

(** *** Loops that append are maps *)

Lemma fold_left_append_map {A B} (f : A -> B) (l : list A) (acc : list B) :
  fold_left (fun acc x => acc ++ [f x]) l acc = acc ++ map f l.
Proof.
  revert acc. induction l as [|x l IH]; intros acc; simpl.
  - by rewrite app_nil_r.
  - rewrite IH. by rewrite <- app_assoc.
Qed.

(** *** The filters *)

Section filter_facts.
Import Re common_filters filter_spec.

Variable isalnum : N -> bool.

Lemma extract_answer_letter_map resps :
  extract_answer_letter isalnum resps = map (answer_of isalnum) resps.
Proof. unfold extract_answer_letter. by rewrite fold_left_append_map. Qed.

Lemma strip_thinking_tags_map resps :
  strip_thinking_tags isalnum resps
  = map (fun resp => strip (strip_tags isalnum resp)) resps.
Proof. unfold strip_thinking_tags. by rewrite fold_left_append_map. Qed.

Lemma search_from_eq re pos prev s :
  search_from isalnum re pos prev s
  = match match_here isalnum re None prev s with
    | Some m => Some (pos, m)
    | None =>
        match s with
        | x :: s' => search_from isalnum re (S pos) (Some x) s'
        | [] => None
        end
    end.
Proof. by destruct s. Qed.

(** The pattern [\b(k)\b] at one position. *)
Lemma match_here_standalone k prev s :
  match_here isalnum [WordBoundary; Group1 k; WordBoundary] None prev s
  = match s with
    | x :: s' =>
        if at_boundary isalnum prev (Some x) && cmatch k x
           && at_boundary isalnum (Some x) (head s')
        then Some (1%nat, Some x) else None
    | [] => None
    end.
Proof.
  destruct s as [|x s']; simpl.
  - by destruct (at_boundary isalnum prev None).
  - destruct (at_boundary isalnum prev (Some x)); simpl; [|done].
    destruct (cmatch k x); simpl; [|done].
    by destruct (at_boundary isalnum (Some x) (head s')).
Qed.

Lemma at_boundary_word_l c next :
  isword isalnum c = true ->
  at_boundary isalnum (Some c) next = true <-> non_word isalnum next.
Proof.
  intros Hc. unfold at_boundary, non_word. simpl. rewrite Hc.
  destruct next as [d|]; simpl; [|done].
  destruct (isword isalnum d); simpl; split; congruence.
Qed.

Lemma at_boundary_word_r prev c :
  isword isalnum c = true ->
  at_boundary isalnum prev (Some c) = true <-> non_word isalnum prev.
Proof.
  intros Hc. unfold at_boundary, non_word. simpl. rewrite Hc.
  destruct prev as [d|]; simpl; [|done].
  destruct (isword isalnum d); simpl; split; congruence.
Qed.

Lemma standalone_from_shift prev chars x s i c :
  standalone_from isalnum prev chars (x :: s) (S i) c
  <-> standalone_from isalnum (Some x) chars s i c.
Proof.
  unfold standalone_from. simpl. by destruct i.
Qed.

Section one_class.

Variable k : cclass.
Variable chars : list N.
Hypothesis k_chars : forall c, cmatch k c = true <-> c ∈ chars.
Hypothesis chars_word : forall c, c ∈ chars -> isword isalnum c = true.

Let re : regex := [WordBoundary; Group1 k; WordBoundary].

Lemma match_here_standalone_iff prev s m :
  match_here isalnum re None prev s = Some m
  <-> exists c, m = (1%nat, Some c) /\ standalone_from isalnum prev chars s 0 c.
Proof.
  unfold re. rewrite match_here_standalone. unfold standalone_from.
  destruct s as [|x s']; simpl.
  - split; [done|]. by intros (c & _ & ? & _).
  - destruct (cmatch k x) eqn:Hk.
    + assert (Hx : x ∈ chars) by by apply k_chars.
      assert (Hw := chars_word _ Hx).
      destruct (at_boundary isalnum prev (Some x)) eqn:Hb1; simpl.
      * destruct (at_boundary isalnum (Some x) (head s')) eqn:Hb2.
        -- split.
           ++ intros [= <-]. exists x. split_and!; try done.
              ** by apply (at_boundary_word_r prev x).
              ** apply (at_boundary_word_l x (head s')) in Hb2; [|done].
                 by destruct s'.
           ++ by intros (c & -> & [= ->] & _).
        -- split; [done|]. intros (c & -> & [= <-] & _ & _ & Hn).
           assert (at_boundary isalnum (Some x) (head s') = true); [|congruence].
           apply at_boundary_word_l; [done|]. by destruct s'.
      * split; [done|]. intros (c & -> & [= <-] & _ & Hn & _).
        assert (at_boundary isalnum prev (Some x) = true); [|congruence].
        by apply at_boundary_word_r.
    + rewrite andb_false_r. simpl. split; [done|].
      intros (c & -> & [= <-] & Hc & _). apply k_chars in Hc. congruence.
Qed.

Lemma search_from_standalone s : forall pos prev p m,
  search_from isalnum re pos prev s = Some (p, m) ->
  exists i c, p = (pos + i)%nat /\ m = (1%nat, Some c)
              /\ standalone_from isalnum prev chars s i c
              /\ forall j d, (j < i)%nat -> ~ standalone_from isalnum prev chars s j d.
Proof.
  induction s as [|x s IH]; intros pos prev p m; rewrite search_from_eq.
  - destruct (match_here isalnum re None prev []) as [m'|] eqn:Hm; [|done].
    apply match_here_standalone_iff in Hm as (c & _ & Hc & _). done.
  - destruct (match_here isalnum re None prev (x :: s)) as [m'|] eqn:Hm.
    + intros [= <- <-]. apply match_here_standalone_iff in Hm as (c & -> & Hc).
      exists 0%nat, c. split_and!; [lia|done|done|]. intros j d Hj. lia.
    + intros Hs. apply IH in Hs as (i & c & -> & -> & Hc & Hmin).
      exists (S i), c. split_and!; [lia|done| |].
      * by apply standalone_from_shift.
      * intros [|j] d Hj Hd.
        -- assert (match_here isalnum re None prev (x :: s) = Some (1%nat, Some d))
             as Hm' by (apply match_here_standalone_iff; eauto).
           congruence.
        -- apply standalone_from_shift in Hd. apply (Hmin j d); [lia|done].
Qed.

Lemma search_from_none s : forall pos prev,
  search_from isalnum re pos prev s = None ->
  forall i c, ~ standalone_from isalnum prev chars s i c.
Proof.
  induction s as [|x s IH]; intros pos prev; rewrite search_from_eq.
  - intros _ i c (Hc & _). by destruct i.
  - destruct (match_here isalnum re None prev (x :: s)) as [m'|] eqn:Hm; [done|].
    intros Hs [|i] c Hc.
    + assert (match_here isalnum re None prev (x :: s) = Some (1%nat, Some c))
        as Hm' by (apply match_here_standalone_iff; eauto).
      congruence.
    + apply standalone_from_shift in Hc. by apply (IH _ _ Hs i c).
Qed.

Lemma search_first_standalone s m :
  search isalnum re s = Some m ->
  exists c, group1 m = [c] /\ first_standalone isalnum chars s c.
Proof.
  destruct m as [p m]. intros Hs.
  apply search_from_standalone in Hs as (i & c & _ & -> & Hc & Hmin).
  exists c. split; [done|]. by exists i.
Qed.

Lemma search_no_standalone s :
  search isalnum re s = None -> no_standalone isalnum chars s.
Proof. intros Hs i c. by apply (search_from_none s 0%nat None). Qed.

End one_class.

End filter_facts.

Section filter_results.
Import Re common_filters filter_spec.

Variable isalnum : N -> bool.

Lemma letter_class c :
  cmatch (CSet [(65, 68); (97, 100)]) c = true <-> c ∈ u "ABCDabcd".
Proof. eval_u. simpl. unfold in_range. elem_cases. lia. Qed.

Lemma digit_class c :
  cmatch (CSet [(49, 52)]) c = true <-> c ∈ u "1234".
Proof. eval_u. simpl. unfold in_range. elem_cases. lia. Qed.

(** Whatever the table says, group 1 of [\b(k)\b] holds one character of
    the class. *)
Lemma search_from_group k s : forall pos prev m,
  search_from isalnum [WordBoundary; Group1 k; WordBoundary] pos prev s = Some m ->
  exists c, group1 m = [c] /\ cmatch k c = true.
Proof.
  induction s as [|x s IH]; intros pos prev m;
    rewrite search_from_eq, match_here_standalone; [done|].
  destruct (at_boundary isalnum prev (Some x) && cmatch k x
            && at_boundary isalnum (Some x) (head s)) eqn:Hb.
  - intros [= <-]. exists x. split; [done|].
    apply andb_true_iff in Hb as [Hb _]. by apply andb_true_iff in Hb as [_ Hb].
  - apply IH.
Qed.

Lemma upper_letter c :
  c ∈ u "ABCDabcd" ->
  exists L, upper [c] = [L] /\ (c, L) ∈ zip (u "ABCDabcd") (u "ABCDABCD").
Proof.
  eval_u. elem_cases.
  intros H. repeat destruct H as [->|H]; try done;
    eexists; (split; [vm_compute; reflexivity|]); simpl; elem_cases; tauto.
Qed.

Lemma num_to_letter_digit c :
  c ∈ u "1234" ->
  exists L, get num_to_letter [c] [c] = [L] /\ (c, L) ∈ zip (u "1234") (u "ABCD").
Proof.
  eval_u. elem_cases.
  intros H. repeat destruct H as [->|H]; try done;
    eexists; (split; [vm_compute; reflexivity|]); simpl; elem_cases; tauto.
Qed.

Lemma answer_of_values resp :
  answer_of isalnum resp ∈ [u ""; u "A"; u "B"; u "C"; u "D"].
Proof.
  unfold answer_of, search.
  destruct (search_from isalnum letter_re 0 None _) as [m|] eqn:Hl.
  - apply search_from_group in Hl as (c & -> & Hc). apply letter_class in Hc.
    destruct (upper_letter c Hc) as (L & -> & HL).
    revert HL. eval_u. simpl. elem_cases.
    intros H. repeat destruct H as [[= -> ->]|H]; try done; tauto.
  - destruct (search_from isalnum digit_re 0 None _) as [m|] eqn:Hd.
    + apply search_from_group in Hd as (c & -> & Hc). apply digit_class in Hc.
      destruct (num_to_letter_digit c Hc) as (L & -> & HL).
      revert HL. eval_u. simpl. elem_cases.
      intros H. repeat destruct H as [[= -> ->]|H]; try done; tauto.
    + eval_u. elem_cases. tauto.
Qed.

Section ascii.

Hypothesis table : ascii_table isalnum.

Lemma letters_word c : c ∈ u "ABCDabcd" -> isword isalnum c = true.
Proof.
  eval_u. elem_cases. intros H. unfold isword.
  rewrite table by lia. repeat destruct H as [->|H]; done.
Qed.

Lemma digits_word c : c ∈ u "1234" -> isword isalnum c = true.
Proof.
  eval_u. elem_cases. intros H. unfold isword.
  rewrite table by lia. repeat destruct H as [->|H]; done.
Qed.

Lemma answer_of_spec resp :
  answer_spec isalnum (strip_tags isalnum resp) (answer_of isalnum resp).
Proof.
  unfold answer_of.
  destruct (search isalnum letter_re _) as [m|] eqn:Hl.
  - apply (search_first_standalone isalnum _ _ letter_class letters_word)
      in Hl as (c & -> & Hc).
    assert (Hin : c ∈ u "ABCDabcd") by (destruct Hc as (i & Hi & _); apply Hi).
    destruct (upper_letter c Hin) as (L & -> & HL).
    by eapply answer_letter.
  - apply (search_no_standalone isalnum _ _ letter_class letters_word) in Hl.
    destruct (search isalnum digit_re _) as [m|] eqn:Hd.
    + apply (search_first_standalone isalnum _ _ digit_class digits_word)
        in Hd as (c & -> & Hc).
      assert (Hin : c ∈ u "1234") by (destruct Hc as (i & Hi & _); apply Hi).
      destruct (num_to_letter_digit c Hin) as (L & -> & HL).
      by eapply answer_digit.
    + apply (search_no_standalone isalnum _ _ digit_class digits_word) in Hd.
      by apply answer_empty.
Qed.

End ascii.

End filter_results.

(** *** The filters depend on the table only at the characters they read *)

Section table_ext.
Import Re common_filters filter_spec.

Variables f g : N -> bool.

Lemma startswith_app s l :
  startswith s l = true -> s = l ++ drop (length l) s.
Proof.
  revert s. induction l as [|a l IH]; intros [|b s]; simpl; try done.
  intros [Hab Hs]%andb_true_iff. apply N.eqb_eq in Hab as ->.
  f_equal. by apply IH.
Qed.

Lemma at_boundary_ext prev next :
  same_opt f g prev -> same_opt f g next ->
  at_boundary f prev next = at_boundary g prev next.
Proof.
  unfold at_boundary, word_before, isword, same_opt, same_at.
  destruct prev, next; intros; congruence.
Qed.

Lemma same_opt_head s : Forall (same_at f g) s -> same_opt f g (head s).
Proof. by intros [|]. Qed.

Lemma same_opt_last_or prev l :
  same_opt f g prev -> Forall (same_at f g) l -> same_opt f g (last_or prev l).
Proof.
  intros Hp Hl. unfold last_or. destruct (last l) as [c|] eqn:Hc; [|done].
  apply last_Some in Hc as [l' ->]. apply Forall_app in Hl as [_ Hl].
  by inversion Hl.
Qed.

Lemma match_here_ext re : forall gr prev s,
  same_opt f g prev -> Forall (same_at f g) s ->
  match_here f re gr prev s = match_here g re gr prev s.
Proof.
  induction re as [|[l|k|k| |k] re IH]; intros gr prev s Hp Hs; simpl.
  - done.
  - destruct (startswith s l) eqn:Hl; [|done]. f_equal.
    apply startswith_app in Hl. rewrite Hl in Hs.
    apply Forall_app in Hs as [Hs1 Hs2].
    apply IH; [by apply same_opt_last_or|done].
  - revert prev Hp. induction Hs as [|x s Hx Hs IHs]; intros prev Hp.
    + by rewrite (IH gr prev []).
    + rewrite (IH gr prev (x :: s)) by (done || by constructor).
      destruct (match_here g re gr prev (x :: s)); [done|].
      destruct (cmatch k x); [|done]. f_equal. by apply IHs.
  - revert prev Hp. induction Hs as [|x s Hx Hs IHs]; intros prev Hp.
    + by apply IH.
    + rewrite (IH gr prev (x :: s)) by (done || by constructor).
      destruct (cmatch k x); [|done]. by rewrite IHs.
  - rewrite (at_boundary_ext prev (head s)) by (done || by apply same_opt_head).
    destruct (at_boundary g prev (head s)); [|done]. by apply IH.
  - destruct Hs as [|x s Hx Hs]; [done|].
    destruct (cmatch k x); [|done]. f_equal. by apply IH.
Qed.

Lemma search_from_ext re s : forall pos prev,
  same_opt f g prev -> Forall (same_at f g) s ->
  search_from f re pos prev s = search_from g re pos prev s.
Proof.
  induction s as [|x s IH]; intros pos prev Hp Hs;
    rewrite (search_from_eq f re pos), (search_from_eq g re pos),
      (match_here_ext re None prev) by done; [done|].
  destruct (match_here g re None prev (x :: s)); [done|].
  inversion Hs; subst. by apply IH.
Qed.

Lemma sub_from_ext re s : forall skip prev,
  same_opt f g prev -> Forall (same_at f g) s ->
  sub_from f re skip prev s = sub_from g re skip prev s.
Proof.
  induction s as [|x s IH]; intros skip prev Hp Hs; [done|].
  inversion Hs; subst.
  change (sub_from f re skip prev (x :: s)) with
    (match skip with
     | S n => sub_from f re n (Some x) s
     | O => match match_here f re None prev (x :: s) with
            | Some (S n, _) => sub_from f re n (Some x) s
            | _ => x :: sub_from f re 0 (Some x) s
            end
     end).
  change (sub_from g re skip prev (x :: s)) with
    (match skip with
     | S n => sub_from g re n (Some x) s
     | O => match match_here g re None prev (x :: s) with
            | Some (S n, _) => sub_from g re n (Some x) s
            | _ => x :: sub_from g re 0 (Some x) s
            end
     end).
  rewrite (match_here_ext re None prev (x :: s)) by done.
  destruct skip as [|n]; [|by apply IH].
  destruct (match_here g re None prev (x :: s)) as [[[|n] gr]|];
    rewrite IH; done.
Qed.

(** What [re.sub] leaves is made of characters of its argument. *)
Lemma sub_from_Forall (P : N -> Prop) h re s : forall skip prev,
  Forall P s -> Forall P (sub_from h re skip prev s).
Proof.
  induction s as [|x s IH]; intros skip prev Hs; [done|].
  inversion Hs; subst.
  change (sub_from h re skip prev (x :: s)) with
    (match skip with
     | S n => sub_from h re n (Some x) s
     | O => match match_here h re None prev (x :: s) with
            | Some (S n, _) => sub_from h re n (Some x) s
            | _ => x :: sub_from h re 0 (Some x) s
            end
     end).
  destruct skip as [|n]; [|by apply IH].
  destruct (match_here h re None prev (x :: s)) as [[[|n] gr]|];
    try constructor; try done; by apply IH.
Qed.

Lemma strip_tags_ext resp :
  Forall (same_at f g) resp -> strip_tags f resp = strip_tags g resp.
Proof.
  intros Hs. unfold strip_tags, sub_empty.
  rewrite (sub_from_ext think_block resp) by done.
  apply sub_from_ext; [done|]. by apply sub_from_Forall.
Qed.

Lemma answer_of_ext resp :
  Forall (same_at f g) resp -> answer_of f resp = answer_of g resp.
Proof.
  intros Hs. unfold answer_of, search.
  assert (Hc : Forall (same_at f g) (strip_tags g resp)).
  { unfold strip_tags, sub_empty. by do 2 apply sub_from_Forall. }
  rewrite (strip_tags_ext resp) by done.
  by rewrite !(search_from_ext _ (strip_tags g resp)) by done.
Qed.

End table_ext.

Section filter_claims.
Import Re common_filters filter_spec.

Lemma sample_isalnum_ascii : ascii_table sample_isalnum.
Proof.
  intros c Hc. unfold sample_isalnum, in_range.
  destruct (ascii_alnum c); simpl; lia.
Qed.

Lemma answer_of_ascii isalnum resp :
  ascii_table isalnum ->
  Forall (fun c => c < 128) resp ->
  answer_of isalnum resp = answer_of ascii_alnum resp.
Proof.
  intros table Hresp. apply answer_of_ext.
  eapply Forall_impl; [exact Hresp|]. intros c Hc. by apply table.
Qed.

Example strip_thinking_tags_final :
  strip_thinking_tags sample_isalnum [u "<think>x</think> final"] = [u "final"].
Proof. reflexivity. Qed.



(** C10. Every element of the list returned by [extract_answer_letter]
    is the empty string or one of the one-character strings ["A"], ["B"],
    ["C"], ["D"], whatever the responses and the table. *)
Theorem extract_answer_letter_range (isalnum : N -> bool) (resps : list (list N)) :
  Forall (fun out => out ∈ [u ""; u "A"; u "B"; u "C"; u "D"])
    (extract_answer_letter isalnum resps).
Proof.
  rewrite extract_answer_letter_map. apply Forall_forall.
  intros out (resp & -> & _)%list_elem_of_fmap. apply answer_of_values.
Qed.

End filter_claims.

(** *** The request normalizer *)

Section groq_facts.
Import groq_proxy groq_spec.

Variable json_decode : list N -> exn + json.
Variable wide_decode : encoding -> list N -> option (list N).
Variable cfg : config.
Variable environ : gmap (list N) (list N).

Lemma clean_message_inr msg cleaned :
  clean_message msg = inr cleaned ->
  exists m c, msg = JObj m /\ cleaned = JObj c /\ cleaned_from m c.
Proof.
  destruct msg as [| | | | | |m]; try done. simpl. intros Hc.
  exists m. unfold cleaned_from, named.
  destruct (m !! u "name") as [name|] eqn:Hname.
  - destruct (truthy name) eqn:Ht; injection Hc as <-; eexists; (split; [done|]);
      (split; [done|]).
    + split_and!.
      * rewrite !dom_insert_L, dom_empty_L. set_solver.
      * by rewrite lookup_insert_ne, lookup_insert_ne, lookup_insert_eq.
      * by rewrite lookup_insert_ne, lookup_insert_eq.
      * by rewrite lookup_insert_eq.
    + split_and!.
      * rewrite !dom_insert_L, dom_empty_L. set_solver.
      * by rewrite lookup_insert_ne, lookup_insert_eq.
      * by rewrite lookup_insert_eq.
      * by rewrite lookup_insert_ne, lookup_insert_ne, lookup_empty.
  - injection Hc as <-. eexists. split; [done|]. split; [done|]. split_and!.
    + rewrite !dom_insert_L, dom_empty_L. set_solver.
    + by rewrite lookup_insert_ne, lookup_insert_eq.
    + by rewrite lookup_insert_eq.
    + by rewrite lookup_insert_ne, lookup_insert_ne, lookup_empty.
Qed.

Lemma clean_loop_inr msgs : forall acc out,
  clean_loop msgs acc = inr out ->
  exists cleaned, out = acc ++ cleaned
                  /\ Forall2 (fun msg c => clean_message msg = inr c) msgs cleaned.
Proof.
  induction msgs as [|msg msgs IH]; intros acc out; simpl.
  - intros [= <-]. exists []. by rewrite app_nil_r.
  - destruct (clean_message msg) as [e|c] eqn:Hc; [done|].
    intros (cleaned & -> & Hall)%IH. exists (c :: cleaned).
    split; [by rewrite <- app_assoc|]. by constructor.
Qed.

(** A body that is no dict never reaches the call upstream. *)
Lemma transform_inr data fwd :
  transform cfg data = inr fwd ->
  exists d d1, data = JObj d
               /\ transform_messages (JObj d) = inr (JObj d1)
               /\ fwd = JObj (finish cfg d1).
Proof.
  unfold transform.
  destruct (transform_messages data) as [e|data1] eqn:Ht; [done|].
  assert (Hshape : (exists d d1, data = JObj d /\ data1 = JObj d1)
                   \/ (forall d1, data1 <> JObj d1)).
  { destruct data as [| | | |s|l|d]; simpl in Ht; try done.
    - right. destruct (contains _ s); [done|]. by injection Ht as <-.
    - right. destruct (existsb _ l); [done|]. by injection Ht as <-.
    - left. exists d. destruct (d !! u "messages") as [ms|]; [|naive_solver].
      destruct (iterate ms) as [|msgs]; [done|].
      destruct (clean_loop msgs []); [done|]. naive_solver. }
  destruct Hshape as [(d & d1 & -> & ->)|Hno].
  - intros Hf. exists d, d1. split; [done|]. split; [done|].
    unfold add_reasoning, finish in *.
    destruct (reasoning_hidden cfg); simpl in Hf; by injection Hf as <-.
  - unfold add_reasoning. destruct (reasoning_hidden cfg).
    + destruct data1; try done. naive_solver.
    + destruct data1; try done. naive_solver.
Qed.

Lemma do_POST_urlopen path body fwd :
  do_POST json_decode wide_decode cfg environ path body = Urlopen fwd ->
  endswith path (u "/chat/completions") = true
  /\ exists data, loads json_decode wide_decode body = inr data
                  /\ transform cfg data = inr fwd.
Proof.
  unfold do_POST.
  destruct (endswith path _); simpl; [|done].
  destruct (loads json_decode wide_decode body) as [e|data]; [by destruct e|].
  destruct (transform cfg data) as [e|data'] eqn:Ht; [done|].
  destruct (nonempty _); [|done]. intros [= <-]. eauto.
Qed.

Lemma finish_lookup_messages d1 :
  finish cfg d1 !! u "messages" = d1 !! u "messages".
Proof.
  unfold finish, pop. rewrite !lookup_delete_ne by done.
  destruct (reasoning_hidden cfg); [|done]. by rewrite !lookup_insert_ne.
Qed.

End groq_facts.

Section groq_claims.
Import groq_proxy groq_spec.

Variable json_decode : list N -> exn + json.
Variable wide_decode : encoding -> list N -> option (list N).
Variable cfg : config.
Variable environ : gmap (list N) (list N).

Abbreviation do_POST := (do_POST json_decode wide_decode cfg environ).
Abbreviation handle := (handle json_decode wide_decode cfg environ).
Abbreviation loads := (loads json_decode wide_decode).

(** A body of well-formed messages is forwarded once the key is set: the
    statements below about forwarded bodies are not empty. *)
Lemma do_POST_forwards path body d msgs cleaned :
  endswith path (u "/chat/completions") = true ->
  loads body = inr (JObj d) ->
  d !! u "messages" = Some (JArr msgs) ->
  clean_loop msgs [] = inr cleaned ->
  nonempty (get environ (u "GROQ_API_KEY") (u "")) = true ->
  do_POST path body
  = Urlopen (JObj (finish cfg (<[u "messages" := JArr cleaned]> d))).
Proof.
  intros Hp Hl Hm Hc Hk. unfold groq_proxy.do_POST, transform.
  rewrite Hp, Hl. simpl. rewrite Hm. simpl. rewrite Hc.
  unfold add_reasoning, finish. by destruct (reasoning_hidden cfg); simpl; rewrite Hk.
Qed.

(** C2. When the body of a request holds a list of messages, the forwarded
    body holds a list of the same length whose message at each position has
    exactly the keys role and content, and name if and only if the original
    had a name that counts as true; role is the original role or ["user"],
    content the original content or the empty string, name the original
    name.  No other key of the original message is kept. *)
Theorem forwarded_messages_cleaned path body d msgs fwd :
  loads body = inr (JObj d) ->
  d !! u "messages" = Some (JArr msgs) ->
  do_POST path body = Urlopen fwd ->
  exists fd cleaned,
    fwd = JObj fd
    /\ fd !! u "messages" = Some (JArr cleaned)
    /\ length cleaned = length msgs
    /\ forall i msg, msgs !! i = Some msg ->
         exists m c, msg = JObj m /\ cleaned !! i = Some (JObj c)
                     /\ cleaned_from m c.
Proof.
  intros Hl Hm (_ & data & Hl' & Ht)%do_POST_urlopen.
  rewrite Hl in Hl'. injection Hl' as <-.
  apply transform_inr in Ht as (d' & d1 & [= <-] & Ht & ->).
  simpl in Ht. rewrite Hm in Ht. simpl in Ht.
  destruct (clean_loop msgs []) as [e|cleaned] eqn:Hc; [done|].
  injection Ht as <-.
  apply clean_loop_inr in Hc as (cleaned' & -> & Hall). simpl.
  exists (finish cfg (<[u "messages" := JArr cleaned']> d)), cleaned'.
  split_and!; [done| | |].
  - by rewrite finish_lookup_messages, lookup_insert_eq.
  - symmetry. by eapply Forall2_length.
  - intros i msg Hi.
    destruct (Forall2_lookup_l _ _ _ _ _ Hall Hi) as (c' & Hc' & Hclean).
    apply clean_message_inr in Hclean as (m & c & -> & -> & Hmc). eauto.
Qed.

(** C4. When the handler is configured to hide reasoning, every forwarded
    body has [reasoning_format] equal to ["hidden"] and [reasoning_effort]
    equal to the configured level: ["low"], ["medium"] or ["high"]. *)
Theorem forwarded_reasoning_fields path body fwd e :
  reasoning_hidden cfg = true ->
  reasoning_effort cfg = e ->
  do_POST path body = Urlopen fwd ->
  exists fd,
    fwd = JObj fd
    /\ fd !! u "reasoning_format" = Some (JStr (u "hidden"))
    /\ fd !! u "reasoning_effort"
       = Some (JStr match e with
                    | low => u "low"
                    | medium => u "medium"
                    | high => u "high"
                    end).
Proof.
  intros Hh He (_ & data & _ & Ht)%do_POST_urlopen.
  apply transform_inr in Ht as (d & d1 & _ & _ & ->).
  eexists. split; [done|]. unfold finish, pop. rewrite Hh, He.
  rewrite !lookup_delete_ne by done.
  rewrite lookup_insert_ne, lookup_insert_eq, lookup_insert_eq by done.
  by destruct e.
Qed.

(** C5. No forwarded body has a field [tokenized_requests] or a field
    [extra_body], whatever the request held under those names. *)
Theorem forwarded_without_unsupported path body fwd :
  do_POST path body = Urlopen fwd ->
  exists fd,
    fwd = JObj fd
    /\ fd !! u "tokenized_requests" = None
    /\ fd !! u "extra_body" = None.
Proof.
  intros (_ & data & _ & Ht)%do_POST_urlopen.
  apply transform_inr in Ht as (d & d1 & _ & _ & ->).
  eexists. split; [done|]. unfold finish, pop.
  by rewrite lookup_delete_eq, lookup_delete_ne, lookup_delete_eq.
Qed.

(** Text that the decoder refuses is answered 400 without a call upstream. *)
Lemma malformed_text_400 path body :
  endswith path (u "/chat/completions") = true ->
  loads body = inl JSONDecodeError ->
  do_POST path body = SendError 400
  /\ outbound (do_POST path body) = [].
Proof.
  intros Hp Hl. unfold groq_proxy.do_POST. by rewrite Hp, Hl.
Qed.

(** No call upstream is made for a body that [json.loads] refuses,
    whatever it raises. *)
Lemma refused_body_not_forwarded path body e :
  loads body = inl e -> outbound (do_POST path body) = [].
Proof.
  intros Hl. unfold groq_proxy.do_POST. rewrite Hl.
  destruct (endswith path _); simpl; [|done]. by destruct e.
Qed.

(** C3, at the body that shows the defect.  The one byte [0xff] is no
    JSON, yet [json.loads] raises [UnicodeDecodeError] on it, which the
    [except json.JSONDecodeError] clause does not catch: the exception
    leaves the handler, which writes no reply at all, neither 400 nor any
    other; no call upstream is made. *)
Theorem undecodable_body_uncaught :
  do_POST (u "/v1/chat/completions") [0xff] = Uncaught UnicodeDecodeError
  /\ replied (do_POST (u "/v1/chat/completions") [0xff]) = None
  /\ outbound (do_POST (u "/v1/chat/completions") [0xff]) = [].
Proof. done. Qed.

(** C8, as amended.  Only a POST request to a path that ends in
    [/chat/completions] is ever forwarded; a POST request to any other path
    is answered 404 and not forwarded; a request of any other method is not
    forwarded either, and the base class answers it 501. *)
Theorem only_post_chat_completions command path body :
  (forall fwd, handle command path body = Urlopen fwd ->
     command = u "POST" /\ endswith path (u "/chat/completions") = true)
  /\ (command = u "POST" -> endswith path (u "/chat/completions") = false ->
      handle command path body = SendError 404
      /\ outbound (handle command path body) = [])
  /\ (command <> u "POST" ->
      handle command path body = SendError 501
      /\ outbound (handle command path body) = []).
Proof.
  unfold groq_proxy.handle. split_and!.
  - intros fwd. case_bool_decide as Hc; [|done].
    by intros (Hp & _)%do_POST_urlopen.
  - intros -> Hp. rewrite bool_decide_eq_true_2 by done.
    unfold groq_proxy.do_POST. by rewrite Hp.
  - intros Hc. by rewrite bool_decide_eq_false_2.
Qed.

End groq_claims.

Section groq_witnesses.
Import groq_proxy groq_spec.

Abbreviation sample_decode := (decode_only sample_text (JObj sample_dict)).

Lemma sample_loads :
  loads sample_decode no_wide sample_text = inr (JObj sample_dict).
Proof. vm_compute. reflexivity. Qed.

Lemma sample_do_POST :
  do_POST sample_decode no_wide sample_cfg sample_environ sample_path sample_text
  = Urlopen sample_forwarded.
Proof. vm_compute. reflexivity. Qed.

Lemma forwarded_messages_cleaned_witness :
  exists fd cleaned,
    sample_forwarded = JObj fd
    /\ fd !! u "messages" = Some (JArr cleaned)
    /\ length cleaned = length [JObj sample_message]
    /\ forall i msg, [JObj sample_message] !! i = Some msg ->
         exists m c, msg = JObj m /\ cleaned !! i = Some (JObj c)
                     /\ cleaned_from m c.
Proof.
  apply (forwarded_messages_cleaned sample_decode no_wide sample_cfg
           sample_environ sample_path sample_text sample_dict
           [JObj sample_message] sample_forwarded);
    vm_compute; reflexivity.
Defined.

Lemma forwarded_reasoning_fields_witness :
  exists fd,
    sample_forwarded = JObj fd
    /\ fd !! u "reasoning_format" = Some (JStr (u "hidden"))
    /\ fd !! u "reasoning_effort" = Some (JStr (u "medium")).
Proof.
  apply (forwarded_reasoning_fields sample_decode no_wide sample_cfg
           sample_environ sample_path sample_text sample_forwarded medium);
    vm_compute; reflexivity.
Defined.

Lemma forwarded_without_unsupported_witness :
  exists fd,
    sample_forwarded = JObj fd
    /\ fd !! u "tokenized_requests" = None
    /\ fd !! u "extra_body" = None.
Proof.
  apply (forwarded_without_unsupported sample_decode no_wide sample_cfg
           sample_environ sample_path sample_text sample_forwarded);
    vm_compute; reflexivity.
Defined.

Lemma only_post_chat_completions_witness :
  handle sample_decode no_wide sample_cfg sample_environ
    (u "POST") (u "/v1/models") sample_text = SendError 404
  /\ handle sample_decode no_wide sample_cfg sample_environ
       (u "DELETE") sample_path sample_text = SendError 501.
Proof.
  split.
  - apply (only_post_chat_completions sample_decode no_wide sample_cfg
             sample_environ (u "POST") (u "/v1/models") sample_text);
      vm_compute; reflexivity.
  - apply (only_post_chat_completions sample_decode no_wide sample_cfg
             sample_environ (u "DELETE") sample_path sample_text).
    vm_compute. discriminate.
Defined.

(** C8 as stated fails: a GET request to the chat-completions path is
    answered 501 by the base class, not 404. *)
Lemma get_request_answered_501 :
  handle sample_decode no_wide sample_cfg sample_environ
    (u "GET") sample_path sample_text = SendError 501
  /\ replied (handle sample_decode no_wide sample_cfg sample_environ
                (u "GET") sample_path sample_text) <> Some 404%Z.
Proof. split; vm_compute; [reflexivity|discriminate]. Qed.

End groq_witnesses.

(** *** Facts about the string primitives *)

Section string_facts.
Import env_spec.

Lemma startswith_iff s p :
  startswith s p = true <-> exists r, s = p ++ r.
Proof.
  revert s. induction p as [|a p IH]; intros s; simpl.
  - split; [by exists s|done].
  - destruct s as [|b s]; [split; [done|by intros (r & ?)]|].
    rewrite andb_true_iff, N.eqb_eq, IH. split.
    + intros (-> & r & ->). eauto.
    + intros (r & [= -> ->]). eauto.
Qed.

Lemma startswith_drop s p :
  startswith s p = true -> s = p ++ drop (length p) s.
Proof.
  intros (r & ->)%startswith_iff. by rewrite drop_app_length.
Qed.

(** [find_split] answers the first occurrence of the separator. *)
Lemma find_split_Some sep s a b :
  find_split sep s = Some (a, b) ->
  s = a ++ sep ++ b
  /\ forall a' b', s = a' ++ sep ++ b' -> (length a <= length a')%nat.
Proof.
  revert a b. induction s as [|c s IH]; intros a b.
  - simpl. destruct (startswith [] sep) eqn:Hs; [|done].
    intros [= <- <-]. apply startswith_drop in Hs. split; [done|]. simpl. lia.
  - change (find_split sep (c :: s)) with
      (if startswith (c :: s) sep then Some ([], drop (length sep) (c :: s))
       else match find_split sep s with
            | Some (a, b) => Some (c :: a, b)
            | None => None
            end).
    destruct (startswith (c :: s) sep) eqn:Hs.
    + intros [= <- <-]. apply startswith_drop in Hs. split; [done|]. simpl. lia.
    + destruct (find_split sep s) as [[a0 b0]|]; [|done].
      intros [= <- <-]. destruct (IH a0 b0 eq_refl) as [-> Hmin].
      split; [done|]. intros [|c' a'] b' Heq.
      * assert (startswith (c :: a0 ++ sep ++ b0) sep = true); [|congruence].
        apply startswith_iff. exists b'. by rewrite Heq.
      * injection Heq as -> Heq. apply Hmin in Heq. simpl. lia.
Qed.

Lemma find_split_None sep s :
  find_split sep s = None -> forall a b, s <> a ++ sep ++ b.
Proof.
  induction s as [|c s IH].
  - simpl. destruct (startswith [] sep) eqn:Hs; [done|].
    intros _ a b Heq.
    assert (startswith [] sep = true); [|congruence].
    apply startswith_iff. destruct a; [by exists b|done].
  - change (find_split sep (c :: s)) with
      (if startswith (c :: s) sep then Some ([], drop (length sep) (c :: s))
       else match find_split sep s with
            | Some (a, b) => Some (c :: a, b)
            | None => None
            end).
    destruct (startswith (c :: s) sep) eqn:Hs; [done|].
    destruct (find_split sep s) as [[a0 b0]|]; [done|].
    intros _ [|c' a] b Heq.
    + assert (startswith (c :: s) sep = true); [|congruence].
      apply startswith_iff. by exists b.
    + injection Heq as -> Heq. by apply (IH eq_refl a b).
Qed.

Lemma find_split_char c a b :
  c ∉ a -> find_split [c] (a ++ c :: b) = Some (a, b).
Proof.
  induction a as [|x a IH]; intros Hc; simpl.
  - by rewrite N.eqb_refl.
  - apply not_elem_of_cons in Hc as [Hx Hc].
    rewrite (proj2 (N.eqb_neq c x)) by done. simpl. by rewrite IH.
Qed.

Lemma contains_char c s : contains [c] s = true <-> c ∈ s.
Proof.
  unfold contains. induction s as [|x s IH]; simpl.
  - split; [done|]. by intros ?%elem_of_nil.
  - rewrite elem_of_cons. destruct (c =? x) eqn:Hx; simpl.
    + apply N.eqb_eq in Hx. tauto.
    + apply N.eqb_neq in Hx.
      destruct (find_split [c] s) as [[a b]|].
      * split; [|done]. intros _. right. by apply IH.
      * split; [done|]. intros [?|Hs]; [done|]. by apply IH in Hs.
Qed.

Lemma lstrip_by_elem p s c : c ∈ lstrip_by p s -> c ∈ s.
Proof.
  induction s as [|x s IH]; simpl; [done|].
  destruct (p x); [|done]. intros ?%IH. by right.
Qed.

Lemma elem_of_rev (c : N) l : c ∈ rev l <-> c ∈ l.
Proof. rewrite !list_elem_of_In. symmetry. apply in_rev. Qed.

Lemma strip_by_elem p s c : c ∈ strip_by p s -> c ∈ s.
Proof.
  unfold strip_by, rstrip_by. rewrite elem_of_rev.
  intros Hc%lstrip_by_elem. rewrite elem_of_rev in Hc.
  by apply lstrip_by_elem with p.
Qed.

Lemma lstrip_by_keep p c s : p c = false -> lstrip_by p (c :: s) = c :: s.
Proof. intros Hc. simpl. by rewrite Hc. Qed.

Lemma lstrip_by_snoc p l c :
  p c = false -> lstrip_by p (l ++ [c]) = lstrip_by p l ++ [c].
Proof.
  intros Hc. induction l as [|x l IH]; simpl; [by rewrite Hc|].
  by destruct (p x).
Qed.

Lemma rstrip_by_snoc_keep p l c :
  p c = false -> rstrip_by p (l ++ [c]) = l ++ [c].
Proof.
  intros Hc. unfold rstrip_by. rewrite rev_unit, lstrip_by_keep by done.
  simpl. by rewrite rev_involutive.
Qed.

Lemma rstrip_by_snoc_drop p l c :
  p c = true -> rstrip_by p (l ++ [c]) = rstrip_by p l.
Proof.
  intros Hc. unfold rstrip_by. rewrite rev_unit. simpl. by rewrite Hc.
Qed.

Lemma rstrip_by_cons_keep p c s :
  p c = false -> exists r, rstrip_by p (c :: s) = c :: r.
Proof.
  intros Hc. unfold rstrip_by. simpl. rewrite lstrip_by_snoc by done.
  rewrite rev_unit. eauto.
Qed.

Lemma rstrip_by_bare p s :
  (forall c, last s = Some c -> p c = false) -> rstrip_by p s = s.
Proof.
  destruct s as [|x s _] using rev_ind; [done|].
  intros Hl. apply rstrip_by_snoc_keep, Hl. by rewrite last_snoc.
Qed.

Lemma lstrip_by_bare p s :
  (forall c, head s = Some c -> p c = false) -> lstrip_by p s = s.
Proof.
  destruct s as [|x s]; [done|]. intros Hh. apply lstrip_by_keep. by apply Hh.
Qed.

Lemma strip_by_bare p s : bare p s -> strip_by p s = s.
Proof.
  intros [Hh Hl]. unfold strip_by. rewrite lstrip_by_bare by done.
  by apply rstrip_by_bare.
Qed.

(** Stripping a character that wraps a bare text leaves the text. *)
Lemma strip_by_wrapped p q v :
  p q = true -> v <> [] -> bare p v -> strip_by p (q :: v ++ [q]) = v.
Proof.
  intros Hq Hv [Hh Hl]. unfold strip_by. simpl. rewrite Hq.
  destruct v as [|x v]; [done|]. simpl.
  rewrite (Hh x) by done.
  change (x :: v ++ [q]) with ((x :: v) ++ [q]).
  rewrite rstrip_by_snoc_drop by done. by apply rstrip_by_bare.
Qed.

Lemma bare_cons_snoc p c s d :
  p c = false -> p d = false -> bare p (c :: s ++ [d]).
Proof.
  intros Hc Hd. split.
  - by intros ? [= <-].
  - intros e. change (c :: s ++ [d]) with ((c :: s) ++ [d]).
    rewrite last_snoc. by intros [= <-].
Qed.

End string_facts.

(** *** [load_env] *)

Section load_env_facts.
Import groq_proxy env_spec.

Lemma load_line_keeps (line : list N) (environ environ' : gmap (list N) (list N))
    (key value : list N) :
  load_line line environ = inr environ' ->
  environ !! key = Some value -> environ' !! key = Some value.
Proof.
  unfold load_line.
  destruct (nonempty (strip line) && _ && _); [|by intros [= <-]].
  destruct (partition (u "=") (strip line)) as [[k sep] v].
  destruct (nonempty (strip k) && _); [|by intros [= <-]].
  destruct (environ !! strip k) as [old|] eqn:Hk; [by intros [= <-]|].
  unfold setenv. destruct (mem 0 (strip k) || _); [done|].
  intros [= <-] Hkey. rewrite lookup_insert_ne; [done|]. congruence.
Qed.

Lemma load_lines_keeps (f : list (list N)) :
  forall (environ : gmap (list N) (list N)) (key value : list N),
  environ !! key = Some value ->
  fst (load_lines f environ) !! key = Some value.
Proof.
  induction f as [|line f IH]; intros environ key value Hkey; simpl; [done|].
  destruct (load_line line environ) as [e|environ'] eqn:Hl; [done|].
  apply IH. by eapply load_line_keeps.
Qed.

Lemma strip_comment line :
  startswith line (u "#") = true -> startswith (strip line) (u "#") = true.
Proof.
  eval_u. intros (r & ->)%startswith_iff. unfold strip, strip_by.
  simpl app. rewrite lstrip_by_keep by done.
  destruct (rstrip_by_cons_keep isspace 35 r eq_refl) as [r' ->].
  simpl. done.
Qed.

Lemma strip_no_equals line :
  contains (u "=") line = false -> contains (u "=") (strip line) = false.
Proof.
  eval_u. intros Hc. apply not_true_is_false. intros Hs.
  apply contains_char, strip_by_elem, contains_char in Hs. congruence.
Qed.

Lemma load_line_ignored (line : list N) (environ : gmap (list N) (list N)) :
  startswith line (u "#") = true \/ contains (u "=") line = false ->
  load_line line environ = inr environ.
Proof.
  unfold load_line. intros [Hc%strip_comment|He%strip_no_equals].
  - rewrite Hc. simpl. by rewrite andb_false_r.
  - rewrite He. by rewrite andb_false_r.
Qed.

Lemma mem_false c l : c ∉ l -> mem c l = false.
Proof.
  unfold mem. induction l as [|x l IH]; [done|].
  intros [Hx Hl]%not_elem_of_cons. simpl.
  rewrite (proj2 (N.eqb_neq c x)) by done. by apply IH.
Qed.

Lemma plain_value_unquoted v q :
  plain_value v -> is_quote q ->
  strip_chars [39] (strip_chars [34] (strip (q :: v ++ [q]))) = v.
Proof.
  intros (Hne & _ & Hh & Hl) Hq. unfold strip.
  rewrite strip_by_bare by (destruct Hq as [-> | ->]; by apply bare_cons_snoc).
  assert (H34 : bare (fun c => mem c [34]) v).
  { split; intros c Hc; [apply Hh in Hc|apply Hl in Hc]; revert Hc;
      unfold mem; simpl; destruct (c =? 34); done. }
  assert (H39 : bare (fun c => mem c [39]) v).
  { split; intros c Hc; [apply Hh in Hc|apply Hl in Hc]; revert Hc;
      unfold mem; simpl; destruct (c =? 34), (c =? 39); done. }
  unfold strip_chars. destruct Hq as [-> | ->].
  - rewrite strip_by_wrapped by done. by apply strip_by_bare.
  - rewrite (strip_by_bare (fun c => mem c [34])) by by apply bare_cons_snoc.
    by apply strip_by_wrapped.
Qed.

Lemma load_line_quoted (key v : list N) (q : N) (environ : gmap (list N) (list N)) :
  plain_key key -> plain_value v -> is_quote q ->
  environ !! key = None ->
  load_line (key ++ u "=" ++ [q] ++ v ++ [q]) environ = inr (<[key := v]> environ).
Proof.
  intros (Hne & Heq & Hz & Hbare & Hhash) Hv Hq Hnone.
  pose proof Hv as (Hvne & Hvz & _).
  eval_u. unfold load_line. eval_u.
  assert (Hline : strip (key ++ [61] ++ [q] ++ v ++ [q]) = key ++ [61] ++ [q] ++ v ++ [q]).
  { apply strip_by_bare. destruct Hbare as [Hh _]. split.
    - intros c. destruct key as [|k0 key]; [done|]. simpl. intros [= <-]. by apply Hh.
    - intros c. rewrite !app_assoc, last_snoc. intros [= <-].
      by destruct Hq as [-> | ->]. }
  rewrite Hline.
  assert (Hstart : startswith (key ++ [61] ++ [q] ++ v ++ [q]) [35] = false).
  { destruct key as [|k0 key]; [done|]. cbn [app startswith].
    rewrite andb_true_r. apply N.eqb_neq. intros <-. by apply Hhash. }
  assert (Hnon : nonempty (key ++ [61] ++ [q] ++ v ++ [q]) = true)
    by (by destruct key).
  assert (Hcont : contains [61] (key ++ [61] ++ [q] ++ v ++ [q]) = true).
  { apply contains_char. rewrite elem_of_app. right. by left. }
  rewrite Hnon, Hstart, Hcont. simpl negb. simpl andb.
  unfold partition. simpl app. rewrite find_split_char by done.
  assert (Hkey : strip key = key) by (by apply strip_by_bare).
  rewrite !Hkey, plain_value_unquoted by done.
  assert (nonempty key = true) as -> by (by destruct key).
  assert (nonempty v = true) as -> by (by destruct v).
  simpl. rewrite Hnone. unfold setenv.
  by rewrite !mem_false.
Qed.


End load_env_facts.


(** *** The response normalizer *)

Section lines_facts.
Import reasoning_proxy reasoning_spec.

Lemma split_char_nonempty c s : exists l ls, split_char c s = l :: ls.
Proof.
  induction s as [|x s (l & ls & IH)]; simpl; [eauto|].
  destruct (x =? c); [eauto|]. rewrite IH. eauto.
Qed.

Lemma split_char_cons c x s :
  split_char c (x :: s)
  = if x =? c then [] :: split_char c s
    else match split_char c s with
         | l :: ls => (x :: l) :: ls
         | [] => [[x]]
         end.
Proof. done. Qed.

Lemma split_char_last c s : exists init l, split_char c s = init ++ [l].
Proof.
  destruct (split_char_nonempty c s) as (hd & tl & ->).
  destruct (@exists_last _ (hd :: tl)) as (init & l & ->); [done|eauto].
Qed.

(** One more character at the end closes the last line or extends it. *)
Lemma split_char_snoc d s c : forall init l,
  split_char d s = init ++ [l] ->
  split_char d (s ++ [c])
  = if c =? d then init ++ [l; []] else init ++ [l ++ [c]].
Proof.
  induction s as [|x s IH]; intros init l.
  - simpl. destruct init as [|? [|]]; try done. intros [= <-].
    by destruct (c =? d).
  - rewrite <- app_comm_cons, !split_char_cons.
    destruct (split_char_nonempty d s) as (hd & tl & Hs).
    destruct (split_char d s) as [|? ?] using rev_ind; [done|]. clear IHl0.
    rename l0 into init', x0 into l'.
    specialize (IH init' l' eq_refl). rewrite IH.
    destruct (x =? d).
    + intros Heq. change ([] :: init' ++ [l']) with (([] :: init') ++ [l']) in Heq.
      apply app_inj_tail in Heq as [<- <-]. by destruct (c =? d).
    + destruct init' as [|hd' init']; simpl.
      * intros Heq. change [x :: l'] with ([] ++ [x :: l']) in Heq.
        apply app_inj_tail in Heq as [<- <-]. by destruct (c =? d).
      * intros Heq.
        change ((x :: hd') :: init' ++ [l']) with (((x :: hd') :: init') ++ [l']) in Heq.
        apply app_inj_tail in Heq as [<- <-]. by destruct (c =? d).
Qed.

Lemma strip_cons_space c l : isspace c = true -> strip (c :: l) = strip l.
Proof. intros Hc. unfold strip, strip_by. simpl. by rewrite Hc. Qed.

Lemma lstrip_by_snoc_drop p l c :
  p c = true ->
  lstrip_by p (l ++ [c])
  = if nonempty (lstrip_by p l) then lstrip_by p l ++ [c] else [].
Proof.
  intros Hc. induction l as [|x l IH]; simpl; [by rewrite Hc|].
  by destruct (p x).
Qed.

Lemma strip_snoc_space c l : isspace c = true -> strip (l ++ [c]) = strip l.
Proof.
  intros Hc. unfold strip, strip_by. rewrite lstrip_by_snoc_drop by done.
  destruct (lstrip_by isspace l) as [|x l'] eqn:Hl; [done|].
  simpl nonempty. cbv iota. by rewrite rstrip_by_snoc_drop.
Qed.

Lemma trimmed_lines_cons_space c s :
  isspace c = true -> trimmed_lines (c :: s) = trimmed_lines s.
Proof.
  intros Hc. unfold trimmed_lines. rewrite split_char_cons.
  destruct (split_char_nonempty 10 s) as (l & ls & ->).
  destruct (c =? 10); [done|]. simpl. by rewrite strip_cons_space.
Qed.

Lemma trimmed_lines_snoc_space c s :
  isspace c = true -> trimmed_lines (s ++ [c]) = trimmed_lines s.
Proof.
  intros Hc. unfold trimmed_lines.
  destruct (split_char_last 10 s) as (init & l & Hs).
  rewrite (split_char_snoc 10 s c init l), Hs by done.
  destruct (c =? 10); rewrite !map_app, !List.filter_app; f_equal; simpl;
    try done.
  by rewrite strip_snoc_space.
Qed.

Lemma trimmed_lines_lstrip s :
  trimmed_lines (lstrip_by isspace s) = trimmed_lines s.
Proof.
  induction s as [|x s IH]; [done|]. simpl.
  destruct (isspace x) eqn:Hx; [|done]. by rewrite trimmed_lines_cons_space.
Qed.

Lemma trimmed_lines_rstrip s :
  trimmed_lines (rstrip_by isspace s) = trimmed_lines s.
Proof.
  induction s as [|x s IH] using rev_ind; [done|].
  destruct (isspace x) eqn:Hx.
  - by rewrite rstrip_by_snoc_drop, trimmed_lines_snoc_space.
  - by rewrite rstrip_by_snoc_keep.
Qed.

(** Trimming the whole text first changes none of its trimmed lines. *)
Lemma trimmed_lines_strip s : trimmed_lines (strip s) = trimmed_lines s.
Proof.
  unfold strip, strip_by. by rewrite trimmed_lines_rstrip, trimmed_lines_lstrip.
Qed.

Lemma map_filter_strip (L : list (list N)) :
  map strip (List.filter (fun l => nonempty (strip l)) L)
  = List.filter nonempty (map strip L).
Proof.
  induction L as [|l L IH]; [done|]. simpl.
  destruct (nonempty (strip l)); simpl; by rewrite IH.
Qed.

Lemma nonempty_lines_trimmed reasoning :
  nonempty_lines reasoning = trimmed_lines reasoning.
Proof.
  unfold nonempty_lines. rewrite map_filter_strip.
  apply trimmed_lines_strip.
Qed.

(** The lines are the text cut at every newline. *)
Lemma split_char_join c s :
  join c (split_char c s) = s /\ Forall (fun l => c ∉ l) (split_char c s).
Proof.
  induction s as [|x s [IHj IHf]]; [split; [done|]; repeat constructor; apply not_elem_of_nil|].
  rewrite split_char_cons.
  destruct (split_char_nonempty c s) as (l & ls & Hs). rewrite Hs in *.
  destruct (x =? c) eqn:Hx.
  - apply N.eqb_eq in Hx as ->. split.
    + simpl. simpl in IHj. by rewrite IHj.
    + constructor; [apply not_elem_of_nil|done].
  - apply N.eqb_neq in Hx. apply Forall_cons in IHf as [Hl Hls]. split.
    + destruct ls; simpl in *; by rewrite <- IHj.
    + constructor; [|done]. rewrite not_elem_of_cons. split; [congruence|done].
Qed.

End lines_facts.

Section normalizer_facts.
Import reasoning_proxy reasoning_spec.

Lemma marker_answer_nonempty reasoning marker answer :
  marker_answer reasoning marker = Some answer -> nonempty answer = true.
Proof.
  unfold marker_answer. destruct (find_split marker reasoning) as [[a b]|]; [|done].
  destruct (nonempty (strip b)) eqn:Hb; [|done]. by intros [= <-].
Qed.

Lemma first_answer_nonempty ms reasoning answer :
  head (omap (marker_answer reasoning) ms) = Some answer -> nonempty answer = true.
Proof.
  induction ms as [|m ms IH]; simpl; [done|].
  destruct (marker_answer reasoning m) as [t|] eqn:Hm; [|done].
  simpl. intros [= <-]. by eapply marker_answer_nonempty.
Qed.

(** The loop over the markers sets the content to the first yield, and
    leaves the message alone when no marker yields. *)
Lemma marker_loop_first (ms : list (list N)) (reasoning : list N)
    (message : gmap (list N) json) :
  marker_loop ms reasoning message
  = match head (omap (marker_answer reasoning) ms) with
    | Some answer => set_content answer message
    | None => message
    end.
Proof.
  induction ms as [|m ms IH]; simpl; [done|].
  unfold contains, split1, marker_answer.
  destruct (find_split m reasoning) as [[a b]|]; [|done]. simpl.
  by destruct (nonempty (strip b)).
Qed.

Lemma get_set_content (content : list N) (message : gmap (list N) json) :
  get (set_content content message) (u "content") JNull = JStr content.
Proof. unfold get, set_content. by rewrite lookup_insert_eq. Qed.

Lemma fill_content_derived (message : gmap (list N) json) (reasoning : list N) :
  truthy (get message (u "content") JNull) = false ->
  message !! u "reasoning_content" = Some (JStr reasoning) ->
  reasoning <> [] ->
  fill_content message = inr (set_content (derived_content reasoning) message).
Proof.
  intros Hc Hr Hne. unfold fill_content.
  assert (Hg : get message (u "reasoning_content") JNull = JStr reasoning)
    by (unfold get; by rewrite Hr).
  rewrite Hg, Hc. cbn [negb andb truthy].
  assert (nonempty reasoning = true) as -> by (by destruct reasoning).
  f_equal. rewrite marker_loop_first. unfold derived_content, first_answer, fallback.
  destruct (head (omap (marker_answer reasoning) markers)) as [answer|] eqn:Ha.
  - rewrite get_set_content. cbn [truthy].
    by rewrite (first_answer_nonempty _ _ _ Ha).
  - rewrite Hc. cbn [negb]. rewrite nonempty_lines_trimmed.
    by destruct (last (trimmed_lines reasoning)).
Qed.

(** A message whose content counts as true is left as it is. *)
Lemma fill_content_kept (message : gmap (list N) json) :
  truthy (get message (u "content") JNull) = true ->
  fill_content message = inr message.
Proof. intros Hc. unfold fill_content. by rewrite Hc. Qed.

Lemma normalize_choice_kept (c message : gmap (list N) json) :
  c !! u "message" = Some (JObj message) ->
  truthy (get message (u "content") JNull) = true ->
  normalize_choice (JObj c) = inr (JObj c).
Proof.
  intros Hm Hc. unfold normalize_choice.
  assert (get c (u "message") (JObj ∅) = JObj message) as ->
    by (unfold get; by rewrite Hm).
  rewrite fill_content_kept, Hm by done. by rewrite insert_id.
Qed.

Lemma normalize_choice_derived (c message : gmap (list N) json) (reasoning : list N) :
  c !! u "message" = Some (JObj message) ->
  truthy (get message (u "content") JNull) = false ->
  message !! u "reasoning_content" = Some (JStr reasoning) ->
  reasoning <> [] ->
  normalize_choice (JObj c)
  = inr (JObj (<[u "message" :=
                   JObj (<[u "content" := JStr (derived_content reasoning)]> message)]> c)).
Proof.
  intros Hm Hc Hr Hne. unfold normalize_choice.
  assert (get c (u "message") (JObj ∅) = JObj message) as ->
    by (unfold get; by rewrite Hm).
  by rewrite (fill_content_derived message reasoning), Hm.
Qed.

Lemma choices_loop_inr cs cs' :
  choices_loop cs = inr cs' ->
  Forall2 (fun c c' => normalize_choice c = inr c') cs cs'.
Proof.
  revert cs'. induction cs as [|c cs IH]; intros cs'; simpl.
  - intros [= <-]. constructor.
  - destruct (normalize_choice c) as [e|c'] eqn:Hc; [done|].
    destruct (choices_loop cs) as [e|rest]; [done|].
    intros [= <-]. constructor; [done|]. by apply IH.
Qed.

Lemma normalize_choices (d : gmap (list N) json) (cs : list json) (out : json) :
  d !! u "choices" = Some (JArr cs) ->
  normalize (JObj d) = inr out ->
  exists cs', out = JObj (<[u "choices" := JArr cs']> d)
              /\ Forall2 (fun c c' => normalize_choice c = inr c') cs cs'.
Proof.
  intros Hd. simpl. rewrite Hd. simpl.
  destruct (choices_loop cs) as [e|cs'] eqn:Hl; [done|].
  intros [= <-]. exists cs'. split; [done|]. by apply choices_loop_inr.
Qed.

End normalizer_facts.

Section normalizer_claims.
Import reasoning_proxy reasoning_spec.




(** C6. In what the normalizer relays, every choice whose message had a
    content that counts as true is the choice that upstream sent, the
    content and every other field as they were, whatever the message holds
    under reasoning_content. *)
Theorem choice_with_content_kept (d : gmap (list N) json) (cs : list json) (out : json) :
  d !! u "choices" = Some (JArr cs) ->
  normalize (JObj d) = inr out ->
  exists cs',
    out = JObj (<[u "choices" := JArr cs']> d)
    /\ length cs' = length cs
    /\ forall i (c message : gmap (list N) json),
         cs !! i = Some (JObj c) ->
         c !! u "message" = Some (JObj message) ->
         truthy (get message (u "content") JNull) = true ->
         cs' !! i = Some (JObj c).
Proof.
  intros Hd (cs' & -> & Hall)%(normalize_choices d cs); [|done].
  exists cs'. split_and!; [done|symmetry; by eapply Forall2_length|].
  intros i c message Hi Hm Hc.
  destruct (Forall2_lookup_l _ _ _ _ _ Hall Hi) as (c' & Hc' & Hn).
  rewrite (normalize_choice_kept c message) in Hn by done. congruence.
Qed.

Lemma choice_with_content_kept_witness :
  exists cs',
    sample_relayed = JObj (<[u "choices" := JArr cs']> (response_dict sample_choices))
    /\ length cs' = length sample_choices
    /\ cs' !! 0%nat = Some (choice_of (message_of (u "B") (u "x </think> C"))).
Proof.
  destruct (choice_with_content_kept (response_dict sample_choices)
              sample_choices sample_relayed)
    as (cs' & Hout & Hlen & Hkept); [vm_compute; reflexivity ..|].
  exists cs'. split_and!; [exact Hout|exact Hlen|].
  apply (Hkept 0%nat
           (<[u "index" := JInt 0]>
              (<[u "message" := JObj (message_of (u "B") (u "x </think> C"))]> ∅))
           (message_of (u "B") (u "x </think> C")));
    vm_compute; reflexivity.
Defined.

End normalizer_claims.

(** ** Part III: further properties of the code *)

(** *** [strip_thinking_tags] and the closing tag *)

Section closing_tag.
Import Re common_filters.

Variable isalnum : N -> bool.

Lemma match_here_min_star c k g prev s :
  match_here isalnum (MinStar c :: k) g prev s
  = match match_here isalnum k g prev s with
    | Some r => Some r
    | None =>
        match s with
        | x :: s' =>
            if cmatch c x
            then bump 1 (match_here isalnum (MinStar c :: k) g (Some x) s')
            else None
        | [] => None
        end
    end.
Proof. by destruct s. Qed.

Lemma sub_from_cons re skip prev x s :
  sub_from isalnum re skip prev (x :: s)
  = match skip with
    | S n => sub_from isalnum re n (Some x) s
    | O =>
        match match_here isalnum re None prev (x :: s) with
        | Some (S n, _) => sub_from isalnum re n (Some x) s
        | _ => x :: sub_from isalnum re 0 (Some x) s
        end
    end.
Proof. done. Qed.

(** Passing over [skip] characters is starting afresh after them. *)
Lemma sub_from_skip re s : forall skip prev,
  exists prev', sub_from isalnum re skip prev s
                = sub_from isalnum re 0 prev' (drop skip s).
Proof.
  induction s as [|x s IH]; intros skip prev.
  - exists prev. by destruct skip.
  - destruct skip as [|n]; [by exists prev|].
    rewrite sub_from_cons. simpl. apply IH.
Qed.

Lemma max_star_space g prev s :
  exists n, match_here isalnum [MaxStar CSpace] g prev s = Some (n, g).
Proof.
  revert prev. induction s as [|x s IH]; intros prev; simpl; [eauto|].
  destruct (isspace x); [|eauto].
  destruct (IH (Some x)) as [n Hn]. simpl in Hn. rewrite Hn. simpl. eauto.
Qed.

Lemma lit_then_space T g prev s :
  match_here isalnum [Lit T; MaxStar CSpace] g prev s
  = if startswith s T
    then bump (length T)
           (match_here isalnum [MaxStar CSpace] g (last_or prev T) (drop (length T) s))
    else None.
Proof. done. Qed.

Lemma find_split_cons sep c s :
  find_split sep (c :: s)
  = if startswith (c :: s) sep then Some ([], drop (length sep) (c :: s))
    else match find_split sep s with
         | Some (a, b) => Some (c :: a, b)
         | None => None
         end.
Proof. done. Qed.

(** [.*?T\s*] matches where [T] occurs ahead, up to its first
    occurrence and the blanks after it. *)
Lemma lazy_until_Some T s : forall g prev a b,
  find_split T s = Some (a, b) ->
  exists n, match_here isalnum [MinStar CAny; Lit T; MaxStar CSpace] g prev s
            = Some ((length a + length T + n)%nat, g).
Proof.
  induction s as [|x s IH]; intros g prev a b;
    rewrite match_here_min_star, lit_then_space.
  - unfold find_split. destruct (startswith [] T) eqn:Hs; [|done].
    intros [= <- <-].
    destruct (max_star_space g (last_or prev T) (drop (length T) [])) as [n ->].
    simpl. eauto.
  - rewrite find_split_cons. destruct (startswith (x :: s) T) eqn:Hs.
    + intros [= <- <-].
      destruct (max_star_space g (last_or prev T) (drop (length T) (x :: s)))
        as [n ->].
      simpl. eauto.
    + destruct (find_split T s) as [[a0 b0]|] eqn:Hf; [|done].
      intros [= <- <-]. cbn [cmatch].
      destruct (IH g (Some x) a0 b0 eq_refl) as [n ->]. simpl. eauto.
Qed.

Lemma lazy_until_None T s : forall g prev,
  find_split T s = None ->
  match_here isalnum [MinStar CAny; Lit T; MaxStar CSpace] g prev s = None.
Proof.
  induction s as [|x s IH]; intros g prev;
    rewrite match_here_min_star, lit_then_space.
  - simpl. by destruct (startswith [] T).
  - rewrite find_split_cons. destruct (startswith (x :: s) T); [done|].
    destruct (find_split T s) as [[a0 b0]|] eqn:Hf; [done|].
    intros _. cbn [cmatch]. by rewrite IH.
Qed.

Lemma find_split_None_iff sep s :
  find_split sep s = None <-> forall a b, s <> a ++ sep ++ b.
Proof.
  split; [apply find_split_None|].
  intros Hno. destruct (find_split sep s) as [[a b]|] eqn:Hf; [|done].
  apply find_split_Some in Hf as [Hf _]. by destruct (Hno a b).
Qed.

Lemma find_split_None_drop sep s k :
  find_split sep s = None -> find_split sep (drop k s) = None.
Proof.
  rewrite !find_split_None_iff. intros Hno a b Hd.
  apply (Hno (take k s ++ a) b). rewrite <- (take_drop k s) at 1.
  by rewrite Hd, <- app_assoc.
Qed.

Lemma find_split_None_tail sep x s :
  find_split sep (x :: s) = None -> find_split sep s = None.
Proof. apply (find_split_None_drop sep (x :: s) 1). Qed.

(** Without the closing tag neither substitution finds anything. *)
Lemma sub_think_close_id s : forall prev,
  find_split (u "</think>") s = None ->
  sub_from isalnum think_close 0 prev s = s.
Proof.
  induction s as [|x s IH]; intros prev Hf; [done|].
  rewrite sub_from_cons. unfold think_close at 1.
  rewrite lazy_until_None by done. f_equal.
  apply IH. by eapply find_split_None_tail.
Qed.

Lemma sub_think_block_id s : forall prev,
  find_split (u "</think>") s = None ->
  sub_from isalnum think_block 0 prev s = s.
Proof.
  induction s as [|x s IH]; intros prev Hf; [done|].
  rewrite sub_from_cons.
  assert (match_here isalnum think_block None prev (x :: s) = None) as ->.
  { unfold think_block.
    change (match_here isalnum (Lit (u "<think>") :: ?k) None prev (x :: s))
      with (if startswith (x :: s) (u "<think>")
            then bump (length (u "<think>"))
                   (match_here isalnum k None (last_or prev (u "<think>"))
                      (drop (length (u "<think>")) (x :: s)))
            else None).
    destruct (startswith (x :: s) (u "<think>")); [|done].
    by rewrite lazy_until_None by by apply find_split_None_drop. }
  f_equal. apply IH. by eapply find_split_None_tail.
Qed.

Lemma strip_tags_id resp :
  contains (u "</think>") resp = false -> strip_tags isalnum resp = resp.
Proof.
  unfold contains. destruct (find_split (u "</think>") resp) eqn:Hf; [done|].
  intros _. unfold strip_tags, sub_empty.
  rewrite sub_think_block_id by done. by apply sub_think_close_id.
Qed.

(** What the second substitution leaves has no closing tag. *)
Lemma sub_think_close_clean n : forall s prev,
  (length s <= n)%nat ->
  contains (u "</think>") (sub_from isalnum think_close 0 prev s) = false.
Proof.
  induction n as [|n IH]; intros s prev Hn.
  - destruct s; [done|simpl in Hn; lia].
  - destruct (find_split (u "</think>") s) as [[a b]|] eqn:Hf.
    + destruct s as [|x s]; [done|].
      rewrite sub_from_cons. unfold think_close at 1.
      destruct (lazy_until_Some (u "</think>") (x :: s) None prev a b Hf)
        as [m ->].
      replace (length a + length (u "</think>") + m)%nat
        with (S (length a + 7 + m)) by (simpl; lia).
      destruct (sub_from_skip think_close s (length a + 7 + m) (Some x))
        as [prev' ->].
      apply IH. rewrite length_drop. simpl in Hn. lia.
    + rewrite sub_think_close_id by done. unfold contains. by rewrite Hf.
Qed.

Lemma strip_tags_clean resp :
  contains (u "</think>") (strip_tags isalnum resp) = false.
Proof. unfold strip_tags, sub_empty. by eapply sub_think_close_clean. Qed.

End closing_tag.

Section strip_facts.
Import env_spec.

Lemma lstrip_by_suffix p s : exists l, s = l ++ lstrip_by p s.
Proof.
  induction s as [|x s [l IH]]; [by exists []|]. simpl.
  destruct (p x); [|by exists []]. exists (x :: l). simpl. by f_equal.
Qed.

Lemma rstrip_by_prefix p s : exists r, s = rstrip_by p s ++ r.
Proof.
  induction s as [|x s [r IH]] using rev_ind; [by exists []|].
  destruct (p x) eqn:Hx.
  - rewrite rstrip_by_snoc_drop by done. exists (r ++ [x]).
    rewrite app_assoc. by f_equal.
  - rewrite rstrip_by_snoc_keep by done. exists []. by rewrite app_nil_r.
Qed.

(** What [strip] returns is a stretch of its argument. *)
Lemma strip_by_infix p s : exists l r, s = l ++ strip_by p s ++ r.
Proof.
  unfold strip_by. destruct (lstrip_by_suffix p s) as [l Hl].
  destruct (rstrip_by_prefix p (lstrip_by p s)) as [r Hr].
  exists l, r. by rewrite <- Hr.
Qed.

Lemma contains_strip sep s :
  contains sep s = false -> contains sep (strip s) = false.
Proof.
  unfold contains.
  destruct (find_split sep s) as [|] eqn:Hs; [done|]. intros _.
  destruct (find_split sep (strip s)) as [[a b]|] eqn:Hf; [|done].
  apply find_split_Some in Hf as [Hf _].
  destruct (strip_by_infix isspace s) as (l & r & Hlr). fold (strip s) in Hlr.
  rewrite Hf in Hlr.
  destruct (find_split_None sep s Hs (l ++ a) (b ++ r)).
  rewrite Hlr. by rewrite <- !app_assoc.
Qed.

Lemma rstrip_by_last p s c : last (rstrip_by p s) = Some c -> p c = false.
Proof.
  induction s as [|x s IH] using rev_ind; [done|].
  destruct (p x) eqn:Hx.
  - by rewrite rstrip_by_snoc_drop.
  - rewrite rstrip_by_snoc_keep, last_snoc by done. by intros [= <-].
Qed.

Lemma lstrip_by_head p s c : head (lstrip_by p s) = Some c -> p c = false.
Proof.
  induction s as [|x s IH]; [done|]. simpl.
  destruct (p x) eqn:Hx; [done|]. by intros [= <-].
Qed.

(** What [strip] returns has nothing to strip at its ends. *)
Lemma strip_by_is_bare p s : bare p (strip_by p s).
Proof.
  unfold strip_by. split; [|apply rstrip_by_last].
  intros c. destruct (lstrip_by p s) as [|y t] eqn:Hl; [done|].
  assert (Hy : p y = false) by (apply (lstrip_by_head p s); by rewrite Hl).
  destruct (rstrip_by_cons_keep p y t Hy) as [r ->]. by intros [= <-].
Qed.

Lemma strip_by_idem p s : strip_by p (strip_by p s) = strip_by p s.
Proof. apply strip_by_bare, strip_by_is_bare. Qed.

End strip_facts.

Section filter_extras.
Import Re common_filters filter_spec.

Variable isalnum : N -> bool.

(** X1. No response cleaned by [strip_thinking_tags] holds the closing tag
    [</think>] anywhere, whatever the responses were. *)
Theorem strip_thinking_tags_no_closing_tag (resps : list (list N)) :
  Forall (fun out => forall a b, out <> a ++ u "</think>" ++ b)
    (strip_thinking_tags isalnum resps).
Proof.
  rewrite strip_thinking_tags_map. apply Forall_forall.
  intros out (resp & -> & _)%list_elem_of_fmap.
  apply find_split_None_iff.
  pose proof (contains_strip (u "</think>") _ (strip_tags_clean isalnum resp)) as H.
  unfold contains in H. by destruct (find_split _ (strip _)).
Qed.

(** X2. Responses without the closing tag are only trimmed: the result is
    each response with the blanks at its ends removed, an opening tag left
    in place. *)
Theorem strip_thinking_tags_without_tag (resps : list (list N)) :
  Forall (fun resp => contains (u "</think>") resp = false) resps ->
  strip_thinking_tags isalnum resps = map strip resps.
Proof.
  intros Hall. rewrite strip_thinking_tags_map. apply map_ext_Forall.
  eapply Forall_impl; [exact Hall|]. intros resp Hc. simpl.
  by rewrite strip_tags_id.
Qed.

(** X3. Cleaning twice is cleaning once. *)
Theorem strip_thinking_tags_idempotent (resps : list (list N)) :
  strip_thinking_tags isalnum (strip_thinking_tags isalnum resps)
  = strip_thinking_tags isalnum resps.
Proof.
  rewrite (strip_thinking_tags_without_tag (strip_thinking_tags isalnum resps)).
  - rewrite strip_thinking_tags_map, map_map. apply map_ext.
    intros resp. apply strip_by_idem.
  - rewrite strip_thinking_tags_map. apply Forall_forall.
    intros out (resp & -> & _)%list_elem_of_fmap.
    apply contains_strip, strip_tags_clean.
Qed.

End filter_extras.

Lemma strip_thinking_tags_without_tag_witness :
  common_filters.strip_thinking_tags filter_spec.sample_isalnum
    [u "  <think> B "; u "C."]
  = map strip [u "  <think> B "; u "C."].
Proof.
  apply (strip_thinking_tags_without_tag filter_spec.sample_isalnum).
  repeat constructor.
Defined.

(** *** The relay of the upstream answer *)

Section relay_facts.
Import groq_proxy groq_server.

Lemma div64 a b q : b < q -> 0 < q -> (a * q + b) / q = a /\ (a * q + b) mod q = b.
Proof.
  intros Hb Hq. split.
  - symmetry. apply (N.div_unique _ q a b); lia.
  - symmetry. apply (N.mod_unique _ q a b); lia.
Qed.

Lemma encode_point_2 c0 c1 :
  in_range 0xc2 0xdf c0 = true -> is_cont c1 = true ->
  encode_point ((c0 - 0xc0) * 64 + cont c1) = Some [c0; c1].
Proof.
  unfold encode_point, is_cont, cont, in_range. intros H0 H1.
  destruct (div64 (c0 - 0xc0) (c1 - 0x80) 64) as [Hd Hm]; [lia..|].
  rewrite Hd, Hm.
  assert (((c0 - 0xc0) * 64 + (c1 - 0x80) <? 0x80) = false) as -> by lia.
  assert (((c0 - 0xc0) * 64 + (c1 - 0x80) <? 0x800) = true) as -> by lia.
  do 2 f_equal; [lia|f_equal; lia].
Qed.

Lemma encode_point_3 c0 c1 c2 :
  in_range 0xe0 0xef c0 = true -> is_cont c1 = true -> is_cont c2 = true ->
  negb ((c0 =? 0xe0) && (c1 <? 0xa0)) = true ->
  negb ((c0 =? 0xed) && (0x9f <? c1)) = true ->
  encode_point ((c0 - 0xe0) * 4096 + cont c1 * 64 + cont c2) = Some [c0; c1; c2].
Proof.
  unfold encode_point, is_cont, cont, in_range. intros H0 H1 H2 H3 H4.
  set (x := c0 - 0xe0). set (y := c1 - 0x80). set (z := c2 - 0x80).
  assert (Hx : x < 16) by lia. assert (Hy : y < 64) by lia.
  assert (Hz : z < 64) by lia.
  set (cp := x * 4096 + y * 64 + z).
  assert (Hd1 : cp / 4096 = x).
  { symmetry. apply (N.div_unique _ 4096 x (y * 64 + z)); lia. }
  assert (Hd2 : cp / 64 = x * 64 + y).
  { symmetry. apply (N.div_unique _ 64 (x * 64 + y) z); lia. }
  assert (Hm2 : cp mod 64 = z).
  { symmetry. apply (N.mod_unique _ 64 (x * 64 + y) z); lia. }
  assert (Hm1 : (x * 64 + y) mod 64 = y) by (by apply div64).
  rewrite Hd1, Hd2, Hm2, Hm1.
  assert ((cp <? 0x80) = false) as -> by lia.
  assert ((cp <? 0x800) = false) as -> by lia.
  assert ((cp <? 0x10000) = true) as -> by lia.
  assert (((0xd800 <=? cp) && (cp <=? 0xdfff)) = false) as -> by lia.
  do 2 f_equal; [lia|f_equal; [lia|f_equal; lia]].
Qed.

Lemma encode_point_4 c0 c1 c2 c3 :
  in_range 0xf0 0xf4 c0 = true ->
  is_cont c1 = true -> is_cont c2 = true -> is_cont c3 = true ->
  negb ((c0 =? 0xf0) && (c1 <? 0x90)) = true ->
  negb ((c0 =? 0xf4) && (0x8f <? c1)) = true ->
  encode_point ((c0 - 0xf0) * 262144 + cont c1 * 4096 + cont c2 * 64 + cont c3)
  = Some [c0; c1; c2; c3].
Proof.
  unfold encode_point, is_cont, cont, in_range.
  intros H0 H1 H2 H3 H4 H5.
  set (w := c0 - 0xf0). set (x := c1 - 0x80).
  set (y := c2 - 0x80). set (z := c3 - 0x80).
  assert (Hw : w < 5) by lia. assert (Hx : x < 64) by lia.
  assert (Hy : y < 64) by lia. assert (Hz : z < 64) by lia.
  set (cp := w * 262144 + x * 4096 + y * 64 + z).
  assert (Hd1 : cp / 262144 = w).
  { symmetry. apply (N.div_unique _ 262144 w (x * 4096 + y * 64 + z)); lia. }
  assert (Hd2 : cp / 4096 = w * 64 + x).
  { symmetry. apply (N.div_unique _ 4096 (w * 64 + x) (y * 64 + z)); lia. }
  assert (Hd3 : cp / 64 = (w * 64 + x) * 64 + y).
  { symmetry. apply (N.div_unique _ 64 ((w * 64 + x) * 64 + y) z); lia. }
  assert (Hm3 : cp mod 64 = z).
  { symmetry. apply (N.mod_unique _ 64 ((w * 64 + x) * 64 + y) z); lia. }
  assert (Hm1 : (w * 64 + x) mod 64 = x) by (by apply div64).
  assert (Hm2 : ((w * 64 + x) * 64 + y) mod 64 = y) by (by apply div64).
  rewrite Hd1, Hd2, Hd3, Hm3, Hm1, Hm2.
  assert ((cp <? 0x80) = false) as -> by lia.
  assert ((cp <? 0x800) = false) as -> by lia.
  assert ((cp <? 0x10000) = false) as -> by lia.
  assert ((cp <? 0x110000) = true) as -> by lia.
  do 2 f_equal; [lia|f_equal; [lia|f_equal; [lia|f_equal; lia]]].
Qed.

Lemma utf8_round_trip n : forall b s,
  (length b <= n)%nat ->
  utf8_strict_decode b = Some s -> utf8_encode s = Some b.
Proof.
  induction n as [|n IH]; intros b s Hn.
  - destruct b; [by intros [= <-]|simpl in Hn; lia].
  - destruct b as [|c0 r0]; [by intros [= <-]|].
    cbn [utf8_strict_decode].
    destruct (c0 <? 0x80) eqn:H1.
    { destruct (utf8_strict_decode r0) as [t|] eqn:Hr; [|done].
      intros [= <-]. cbn [utf8_encode]. unfold encode_point. rewrite H1.
      rewrite (IH r0 t) by (done || (simpl in Hn; lia)). done. }
    destruct (in_range 0xc2 0xdf c0) eqn:H2.
    { destruct r0 as [|c1 r1]; [done|].
      destruct (is_cont c1) eqn:Hc1; [|done].
      destruct (utf8_strict_decode r1) as [t|] eqn:Hr; [|done].
      intros [= <-]. cbn [utf8_encode]. rewrite encode_point_2 by done.
      rewrite (IH r1 t) by (done || (simpl in Hn; lia)). done. }
    destruct (in_range 0xe0 0xef c0) eqn:H3.
    { destruct r0 as [|c1 [|c2 r2]]; [done..|].
      destruct (is_cont c1) eqn:Hc1; [|done].
      destruct (is_cont c2) eqn:Hc2; [|done].
      destruct (negb ((c0 =? 0xe0) && (c1 <? 0xa0))) eqn:Ho; [|done].
      destruct (negb ((c0 =? 0xed) && (0x9f <? c1))) eqn:Hs; [|done].
      cbn [andb].
      destruct (utf8_strict_decode r2) as [t|] eqn:Hr; [|done].
      intros [= <-]. cbn [utf8_encode]. rewrite encode_point_3 by done.
      rewrite (IH r2 t) by (done || (simpl in Hn; lia)). done. }
    destruct (in_range 0xf0 0xf4 c0) eqn:H4; [|done].
    destruct r0 as [|c1 [|c2 [|c3 r3]]]; [done..|].
    destruct (is_cont c1) eqn:Hc1; [|done].
    destruct (is_cont c2) eqn:Hc2; [|done].
    destruct (is_cont c3) eqn:Hc3; [|done].
    destruct (negb ((c0 =? 0xf0) && (c1 <? 0x90))) eqn:Ho; [|done].
    destruct (negb ((c0 =? 0xf4) && (0x8f <? c1))) eqn:Hs; [|done].
    cbn [andb].
    destruct (utf8_strict_decode r3) as [t|] eqn:Hr; [|done].
    intros [= <-]. cbn [utf8_encode]. rewrite encode_point_4 by done.
    rewrite (IH r3 t) by (done || (simpl in Hn; lia)). done.
Qed.


End relay_facts.

(** *** More on the request normalizer *)

Section groq_extras.
Import groq_proxy groq_spec groq_server.

Variable json_decode : list N -> exn + json.
Variable wide_decode : encoding -> list N -> option (list N).
Variable cfg : config.
Variable environ : gmap (list N) (list N).

Abbreviation do_POST' := (do_POST json_decode wide_decode cfg environ).
Abbreviation loads' := (loads json_decode wide_decode).

Lemma transform_messages_lookup (d d1 : gmap (list N) json) (k : list N) :
  transform_messages (JObj d) = inr (JObj d1) ->
  k <> u "messages" -> d1 !! k = d !! k.
Proof.
  simpl. intros Ht Hk. destruct (d !! u "messages") as [ms|]; [|by injection Ht as <-].
  destruct (iterate ms) as [|msgs]; [done|].
  destruct (clean_loop msgs []); [done|]. injection Ht as <-.
  by rewrite lookup_insert_ne.
Qed.

(** X5. Every field of the request other than [messages],
    [tokenized_requests] and [extra_body] is forwarded as it came; so are
    [reasoning_format] and [reasoning_effort] when the handler is not
    configured to hide reasoning. *)
Theorem forwarded_fields_kept (path body : list N) (d : gmap (list N) json)
    (fwd : json) (k : list N) :
  loads' body = inr (JObj d) ->
  do_POST' path body = Urlopen fwd ->
  k <> u "messages" -> k <> u "tokenized_requests" -> k <> u "extra_body" ->
  reasoning_hidden cfg = false
  \/ (k <> u "reasoning_format" /\ k <> u "reasoning_effort") ->
  exists fd, fwd = JObj fd /\ fd !! k = d !! k.
Proof.
  intros Hl (_ & data & Hl' & Ht)%do_POST_urlopen Hm Htr Heb Hr.
  rewrite Hl in Hl'. injection Hl' as <-.
  apply transform_inr in Ht as (d' & d1 & [= <-] & Ht & ->).
  eexists. split; [done|]. unfold finish, pop.
  rewrite !lookup_delete_ne by done.
  rewrite <- (transform_messages_lookup d d1 k Ht Hm).
  destruct (reasoning_hidden cfg); [|done].
  destruct Hr as [|[? ?]]; [done|]. by rewrite !lookup_insert_ne.
Qed.

(** X6. A body that is JSON but no object (a list, a string, a number,
    [true], [null]) is never forwarded and never answered: an exception
    leaves the handler. *)
Theorem non_object_body_uncaught (path body : list N) (data : json) :
  endswith path (u "/chat/completions") = true ->
  loads' body = inr data ->
  (forall d, data <> JObj d) ->
  exists e, do_POST' path body = Uncaught e.
Proof.
  intros Hp Hl Hno. unfold groq_proxy.do_POST. rewrite Hp, Hl. simpl.
  destruct (transform cfg data) as [e|fwd] eqn:Ht; [eauto|].
  apply transform_inr in Ht as (d & _ & -> & _). by destruct (Hno d).
Qed.

Lemma clean_loop_non_object msgs : forall acc,
  Exists (fun msg => forall m, msg <> JObj m) msgs ->
  clean_loop msgs acc = inl AttributeError.
Proof.
  induction msgs as [|msg msgs IH]; intros acc Hex; [by inversion Hex|].
  simpl. destruct (clean_message msg) as [e|c] eqn:Hc.
  - f_equal. destruct msg as [| | | | | |m]; simpl in Hc; try congruence.
    destruct (m !! u "name") as [name|]; [destruct (truthy name)|]; done.
  - apply IH. apply Exists_cons in Hex as [Hno|]; [|done].
    apply clean_message_inr in Hc as (m & _ & -> & _). by destruct (Hno m).
Qed.

(** X7. When one of the messages is no object, nothing is forwarded and
    nothing is answered: [msg.get] raises [AttributeError], which leaves
    the handler. *)
Theorem non_object_message_uncaught (path body : list N)
    (d : gmap (list N) json) (msgs : list json) :
  endswith path (u "/chat/completions") = true ->
  loads' body = inr (JObj d) ->
  d !! u "messages" = Some (JArr msgs) ->
  Exists (fun msg => forall m, msg <> JObj m) msgs ->
  do_POST' path body = Uncaught AttributeError.
Proof.
  intros Hp Hl Hm Hex. unfold groq_proxy.do_POST, transform.
  rewrite Hp, Hl. simpl. rewrite Hm. simpl.
  by rewrite clean_loop_non_object.
Qed.

Lemma clean_message_fixed msg c :
  clean_message msg = inr c -> clean_message c = inr c.
Proof.
  destruct msg as [| | | | | |m]; try done. simpl.
  destruct (m !! u "name") as [name|] eqn:Hn; [destruct (truthy name) eqn:Ht|];
    intros [= <-]; simpl; unfold get.
  - rewrite lookup_insert_eq, Ht.
    rewrite lookup_insert_ne, lookup_insert_eq by done.
    by rewrite lookup_insert_ne, lookup_insert_ne, lookup_insert_eq by done.
  - rewrite lookup_insert_ne, lookup_insert_ne, lookup_empty by done.
    rewrite lookup_insert_eq.
    by rewrite lookup_insert_ne, lookup_insert_eq by done.
  - rewrite lookup_insert_ne, lookup_insert_ne, lookup_empty by done.
    rewrite lookup_insert_eq.
    by rewrite lookup_insert_ne, lookup_insert_eq by done.
Qed.

Lemma clean_loop_fixed msgs cleaned : forall acc,
  Forall2 (fun msg c => clean_message msg = inr c) msgs cleaned ->
  clean_loop cleaned acc = inr (acc ++ cleaned).
Proof.
  intros acc Hall. revert acc.
  induction Hall as [|msg c msgs cleaned Hc _ IH]; intros acc; simpl.
  - by rewrite app_nil_r.
  - rewrite (clean_message_fixed msg c Hc), IH. by rewrite <- app_assoc.
Qed.

Lemma finish_idempotent (d : gmap (list N) json) :
  finish cfg (finish cfg d) = finish cfg d.
Proof.
  unfold finish, pop. apply map_eq. intros k.
  destruct (decide (k = u "extra_body")) as [->|Heb];
    [by rewrite !lookup_delete_eq|].
  rewrite !(lookup_delete_ne _ (u "extra_body")) by done.
  destruct (decide (k = u "tokenized_requests")) as [->|Htr];
    [by rewrite !lookup_delete_eq|].
  rewrite !(lookup_delete_ne _ (u "tokenized_requests")) by done.
  destruct (reasoning_hidden cfg).
  - destruct (decide (k = u "reasoning_effort")) as [->|Hre];
      [by rewrite !lookup_insert_eq|].
    rewrite !(lookup_insert_ne _ (u "reasoning_effort")) by done.
    destruct (decide (k = u "reasoning_format")) as [->|Hrf];
      [by rewrite !lookup_insert_eq|].
    rewrite !(lookup_insert_ne _ (u "reasoning_format")) by done.
    by rewrite !lookup_delete_ne, !lookup_insert_ne by done.
  - by rewrite !lookup_delete_ne by done.
Qed.

(** X8. What the normalizer forwards it would forward unchanged: lines 59
    to 80 applied to a forwarded body give that body again. *)
Theorem transform_idempotent (data fwd : json) :
  transform cfg data = inr fwd -> transform cfg fwd = inr fwd.
Proof.
  intros (d & d1 & -> & Ht & ->)%transform_inr.
  assert (Hm : transform_messages (JObj (finish cfg d1)) = inr (JObj (finish cfg d1))).
  { simpl in *. rewrite finish_lookup_messages.
    destruct (d !! u "messages") as [ms|] eqn:Hms.
    - destruct (iterate ms) as [|msgs]; [done|].
      destruct (clean_loop msgs []) as [|cleaned] eqn:Hc; [done|].
      injection Ht as <-. rewrite lookup_insert_eq. simpl.
      apply clean_loop_inr in Hc as (cleaned' & -> & Hall).
      rewrite !app_nil_l, (clean_loop_fixed msgs cleaned' [] Hall). simpl.
      rewrite insert_id; [done|].
      by rewrite finish_lookup_messages, lookup_insert_eq.
    - injection Ht as <-. by rewrite Hms. }
  unfold transform. rewrite Hm.
  assert (add_reasoning cfg (JObj (finish cfg d1))
          = inr (JObj (if reasoning_hidden cfg
                       then <[u "reasoning_effort" := JStr (effort_str (reasoning_effort cfg))]>
                              (<[u "reasoning_format" := JStr (u "hidden")]> (finish cfg d1))
                       else finish cfg d1))) as ->.
  { unfold add_reasoning. by destruct (reasoning_hidden cfg). }
  simpl. do 2 f_equal. apply finish_idempotent.
Qed.

End groq_extras.

Section groq_extras_witnesses.
Import groq_proxy groq_spec groq_server groq_samples.

Lemma forwarded_fields_kept_witness :
  exists fd, model_forwarded = JObj fd
             /\ fd !! u "model" = model_dict !! u "model".
Proof.
  apply (forwarded_fields_kept (decode_only model_text (JObj model_dict)) no_wide
           sample_cfg sample_environ sample_path model_text model_dict
           model_forwarded (u "model"));
    try (vm_compute; reflexivity); try discriminate.
  right. split; discriminate.
Defined.

Lemma non_object_body_uncaught_witness :
  exists e, do_POST (decode_only (u "[]") (JArr [])) no_wide sample_cfg
              sample_environ sample_path (u "[]") = Uncaught e.
Proof.
  apply (non_object_body_uncaught (decode_only (u "[]") (JArr [])) no_wide
           sample_cfg sample_environ sample_path (u "[]") (JArr []));
    try (vm_compute; reflexivity).
  discriminate.
Defined.

Lemma non_object_message_uncaught_witness :
  do_POST (decode_only bare_text (JObj bare_dict)) no_wide sample_cfg
    sample_environ sample_path bare_text = Uncaught AttributeError.
Proof.
  apply (non_object_message_uncaught (decode_only bare_text (JObj bare_dict))
           no_wide sample_cfg sample_environ sample_path bare_text bare_dict
           [JStr (u "hi")]);
    try (vm_compute; reflexivity).
  constructor. discriminate.
Defined.

Lemma transform_idempotent_witness :
  transform sample_cfg sample_forwarded = inr sample_forwarded.
Proof.
  apply (transform_idempotent sample_cfg (JObj sample_dict) sample_forwarded).
  vm_compute. reflexivity.
Defined.

End groq_extras_witnesses.

(** *** More on [load_env] and [main] *)

Section load_env_extras.
Import groq_proxy env_spec groq_server.

Lemma find_split_char_before c s a b :
  find_split [c] s = Some (a, b) -> c ∉ a.
Proof.
  intros [Hs Hmin]%find_split_Some Hin.
  apply list_elem_of_split in Hin as (a1 & a2 & ->).
  specialize (Hmin a1 (a2 ++ [c] ++ b)).
  rewrite Hs, <- !app_assoc in Hmin. specialize (Hmin eq_refl).
  rewrite length_app in Hmin. simpl in Hmin. lia.
Qed.

(** What one line adds, if anything, is a binding of a trimmed name
    without [=] to a value that is not empty. *)
Lemma load_line_adds (line : list N) (environ environ' : gmap (list N) (list N))
    (key value : list N) :
  load_line line environ = inr environ' ->
  environ' !! key = Some value ->
  environ !! key = Some value
  \/ (key <> [] /\ value <> [] /\ (61 ∉ key) /\ bare isspace key
      /\ bare (fun c => mem c [39]) value).
Proof.
  unfold load_line.
  destruct (nonempty (strip line) && _ && _); [|intros [= <-]; by left].
  unfold partition.
  destruct (find_split (u "=") (strip line)) as [[k v]|] eqn:Hf.
  - destruct (nonempty (strip k)) eqn:Hk; [|intros [= <-]; by left].
    destruct (nonempty (strip_chars _ _)) eqn:Hv; [|intros [= <-]; by left].
    cbn [andb].
    destruct (environ !! strip k) as [old|] eqn:Hold; [intros [= <-]; by left|].
    unfold setenv. destruct (mem 0 (strip k) || _); [done|].
    intros [= <-]. destruct (decide (key = strip k)) as [->|Hne].
    + rewrite lookup_insert_eq. intros [= <-]. right. split_and!.
      * by destruct (strip k).
      * by destruct (strip_chars _ _).
      * intros Hin%strip_by_elem.
        by apply (find_split_char_before 61 (strip line) k v).
      * apply strip_by_is_bare.
      * apply strip_by_is_bare.
    + rewrite lookup_insert_ne by done. by left.
  - simpl. rewrite andb_false_r. intros [= <-]. by left.
Qed.

(** X9. Every variable that [load_env] leaves set either was set before,
    with that value, or has a name that is not empty, has no [=] and no
    blank at its ends, and a value that is not empty and has no single
    quote at its ends. *)
Theorem load_env_adds_clean_bindings (env_file : option (list (list N)))
    (environ : gmap (list N) (list N)) (key value : list N) :
  fst (load_env env_file environ) !! key = Some value ->
  environ !! key = Some value
  \/ (key <> [] /\ value <> [] /\ (61 ∉ key) /\ bare isspace key
      /\ bare (fun c => mem c [39]) value).
Proof.
  destruct env_file as [f|]; [|by left]. simpl. revert environ.
  induction f as [|line f IH]; intros environ; simpl; [by left|].
  destruct (load_line line environ) as [e|environ'] eqn:Hl; [by left|].
  intros [Hk|Hnew]%IH; [|by right].
  by eapply load_line_adds.
Qed.

Lemma load_line_settled (line : list N)
    (environ environ' final : gmap (list N) (list N)) :
  load_line line environ = inr environ' ->
  environ' ⊆ final ->
  load_line line final = inr final.
Proof.
  unfold load_line.
  destruct (nonempty (strip line) && _ && _); [|done].
  destruct (partition (u "=") (strip line)) as [[k sep] v].
  destruct (nonempty (strip k) && _); [|done].
  destruct (environ !! strip k) as [old|] eqn:Hold.
  - intros [= <-] Hsub.
    by rewrite (lookup_weaken _ _ _ _ Hold Hsub).
  - unfold setenv. destruct (mem 0 (strip k) || _); [done|].
    intros [= <-] Hsub.
    by rewrite (lookup_weaken _ final (strip k) _ (lookup_insert_eq _ _ _) Hsub).
Qed.

Lemma load_lines_grows (f : list (list N)) :
  forall environ : gmap (list N) (list N), environ ⊆ fst (load_lines f environ).
Proof.
  intros environ. apply map_subseteq_spec. intros key value.
  apply load_lines_keeps.
Qed.

(** X10. Loading the same file again changes nothing: a second
    [load_env] leaves the environment of the first, and ends as the first
    did. *)
Theorem load_env_idempotent (env_file : option (list (list N)))
    (environ : gmap (list N) (list N)) :
  load_env env_file (fst (load_env env_file environ)) = load_env env_file environ.
Proof.
  destruct env_file as [f|]; [|done]. simpl. revert environ.
  induction f as [|line f IH]; intros environ; [done|]. simpl.
  destruct (load_line line environ) as [e|environ'] eqn:Hl.
  - simpl. by rewrite Hl.
  - rewrite (load_line_settled line environ environ' (fst (load_lines f environ')) Hl)
      by apply load_lines_grows.
    rewrite IH. by destruct (load_lines f environ').
Qed.

Lemma load_line_unquoted (key v : list N) (environ : gmap (list N) (list N)) :
  plain_key key -> plain_value v -> bare isspace v ->
  environ !! key = None ->
  load_line (key ++ u "=" ++ v) environ = inr (<[key := v]> environ).
Proof.
  intros (Hne & Heq & Hz & Hbare & Hhash) (Hvne & Hvz & Hq) Hsp Hnone.
  eval_u. unfold load_line. eval_u.
  assert (Hline : strip (key ++ [61] ++ v) = key ++ [61] ++ v).
  { apply strip_by_bare. destruct Hbare as [Hh _]. destruct Hsp as [_ Hl].
    split.
    - intros c. destruct key as [|k0 key]; [done|]. simpl. intros [= <-]. by apply Hh.
    - intros c. rewrite app_assoc, last_app.
      destruct (last v) as [d|] eqn:Hd; [intros [= <-]; by apply Hl|].
      by destruct v using rev_ind; [|rewrite last_snoc in Hd]. }
  rewrite Hline.
  assert (Hstart : startswith (key ++ [61] ++ v) [35] = false).
  { destruct key as [|k0 key]; [done|]. cbn [app startswith].
    rewrite andb_true_r. apply N.eqb_neq. intros <-. by apply Hhash. }
  assert (Hnon : nonempty (key ++ [61] ++ v) = true) by (by destruct key).
  assert (Hcont : contains [61] (key ++ [61] ++ v) = true).
  { apply contains_char. rewrite elem_of_app. right. by left. }
  rewrite Hnon, Hstart, Hcont. simpl negb. simpl andb.
  unfold partition. simpl app. rewrite find_split_char by done.
  assert (Hkey : strip key = key) by (by apply strip_by_bare).
  assert (Hval : strip_chars [39] (strip_chars [34] (strip v)) = v).
  { unfold strip. rewrite (strip_by_bare isspace v) by done.
    destruct Hq as [Hh Hl]. unfold strip_chars.
    rewrite (strip_by_bare (fun c => mem c [34]) v).
    - apply strip_by_bare. split; intros c Hc; [apply Hh in Hc|apply Hl in Hc];
        revert Hc; unfold mem; simpl; destruct (c =? 34), (c =? 39); done.
    - split; intros c Hc; [apply Hh in Hc|apply Hl in Hc];
        revert Hc; unfold mem; simpl; destruct (c =? 34); done. }
  rewrite !Hkey, Hval.
  assert (nonempty key = true) as -> by (by destruct key).
  assert (nonempty v = true) as -> by (by destruct v).
  simpl. rewrite Hnone. unfold setenv.
  by rewrite !mem_false.
Qed.

(** X11. A line [KEY=value], the value written without quotes and
    without blanks or quotes at its ends, sets a variable that is not set
    to that value. *)
Theorem load_env_sets_unquoted (key v : list N) (environ : gmap (list N) (list N)) :
  plain_key key -> plain_value v -> bare isspace v ->
  environ !! key = None ->
  load_env (Some [key ++ u "=" ++ v]) environ = (<[key := v]> environ, None).
Proof.
  intros Hk Hv Hs Hn. cbn [load_env load_lines].
  by rewrite load_line_unquoted.
Qed.

Lemma load_env_keeps (env_file : option (list (list N)))
    (environ : gmap (list N) (list N)) (key value : list N) :
  environ !! key = Some value ->
  fst (load_env env_file environ) !! key = Some value.
Proof.
  destruct env_file as [f|]; [|done]. apply load_lines_keeps.
Qed.

(** X12. The key found in the environment is the key: when
    [GROQ_API_KEY] is set before [main] runs, [.env] cannot replace it, so
    the server runs with that very value, and only if it is not empty; a
    key set to the empty string keeps [main] from serving whatever [.env]
    holds. *)
Theorem main_keeps_environment_key (env_file : option (list (list N)))
    (hidden : bool) (e : effort) (environ : gmap (list N) (list N))
    (value : list N) (cfg : config) (environ' : gmap (list N) (list N)) :
  environ !! u "GROQ_API_KEY" = Some value ->
  main env_file hidden e environ = Serving cfg environ' ->
  value <> [] /\ environ' !! u "GROQ_API_KEY" = Some value.
Proof.
  intros Hkey. unfold main.
  pose proof (load_env_keeps env_file environ _ _ Hkey) as Hkept.
  destruct (load_env env_file environ) as [final [exc|]]; [done|].
  simpl in Hkept. unfold get. rewrite Hkept. simpl.
  destruct value; [done|]. by intros [= <- <-].
Qed.

(** X13. Once [main] serves, no request is answered 500 for a missing
    key: the handler finds the key that [main] found. *)
Theorem serving_never_misses_key
    (json_decode : list N -> exn + json)
    (wide_decode : encoding -> list N -> option (list N))
    (env_file : option (list (list N))) (hidden : bool) (e : effort)
    (environ : gmap (list N) (list N))
    (cfg : config) (environ' : gmap (list N) (list N)) (path body : list N) :
  main env_file hidden e environ = Serving cfg environ' ->
  do_POST json_decode wide_decode cfg environ' path body <> SendError 500.
Proof.
  unfold main. destruct (load_env env_file environ) as [final [exc|]]; [done|].
  destruct (nonempty (get final _ _)) eqn:Hk; [|done]. intros [= <- <-].
  unfold groq_proxy.do_POST. destruct (endswith path _); [|done]. simpl.
  destruct (loads _ _ body) as [[]|data]; try done.
  destruct (transform _ data); [done|]. by rewrite Hk.
Qed.

End load_env_extras.

Section load_env_extras_witnesses.
Import groq_proxy groq_spec env_spec groq_server.

Lemma load_env_adds_clean_bindings_witness :
  (∅ : gmap (list N) (list N)) !! u "PORT" = Some (u "8000")
  \/ (u "PORT" <> [] /\ u "8000" <> [] /\ (61 ∉ u "PORT")
      /\ bare isspace (u "PORT") /\ bare (fun c => mem c [39]) (u "8000")).
Proof.
  apply (load_env_adds_clean_bindings (Some [u " PORT = '8000' "]) ∅).
  vm_compute. reflexivity.
Defined.

Lemma load_env_sets_unquoted_witness :
  load_env (Some [u "GROQ_API_KEY" ++ u "=" ++ u "gsk_abc"]) ∅
  = (<[u "GROQ_API_KEY" := u "gsk_abc"]> ∅, None).
Proof.
  apply load_env_sets_unquoted.
  - split_and!; [done|by_decide|by_decide| |done].
    split; intros c [= <-]; reflexivity.
  - split_and!; [done|by_decide|].
    split; intros c [= <-]; reflexivity.
  - split; intros c [= <-]; reflexivity.
  - done.
Defined.

Lemma main_keeps_environment_key_witness :
  u "gsk_test" <> []
  /\ sample_environ !! u "GROQ_API_KEY" = Some (u "gsk_test").
Proof.
  apply (main_keeps_environment_key (Some [u "GROQ_API_KEY=other"]) true medium
           sample_environ (u "gsk_test") sample_cfg sample_environ);
    vm_compute; reflexivity.
Defined.

Lemma serving_never_misses_key_witness :
  do_POST (decode_only sample_text (JObj sample_dict)) no_wide sample_cfg
    sample_environ sample_path sample_text <> SendError 500.
Proof.
  apply (serving_never_misses_key (decode_only sample_text (JObj sample_dict))
           no_wide (Some [u "GROQ_API_KEY=other"]) true medium sample_environ
           sample_cfg sample_environ sample_path sample_text).
  vm_compute. reflexivity.
Defined.

End load_env_extras_witnesses.

(** *** More on the response normalizer *)

Section normalizer_extras.
Import reasoning_proxy reasoning_spec normalizer_spec groq_server reasoning_server.

Lemma derived_content_nonempty (reasoning : list N) :
  reasoning <> [] -> nonempty (derived_content reasoning) = true.
Proof.
  intros Hne. unfold derived_content.
  destruct (first_answer reasoning) as [answer|] eqn:Ha.
  - by eapply first_answer_nonempty.
  - destruct (last (trimmed_lines reasoning)) as [line|] eqn:Hl.
    + apply last_Some in Hl as [l' Hl]. unfold trimmed_lines in Hl.
      assert (Hin : In line (List.filter nonempty (map strip (split_char 10 reasoning)))).
      { rewrite Hl. apply in_or_app. right. by left. }
      by apply List.filter_In in Hin as [_ Hin].
    + by destruct reasoning.
Qed.

(** What the loop body makes of a message, when it raises nothing. *)
Lemma fill_content_cases (m m' : gmap (list N) json) :
  fill_content m = inr m' ->
  (m' = m
   /\ (truthy (get m (u "content") JNull) = true
       \/ truthy (get m (u "reasoning_content") JNull) = false))
  \/ (exists r, r <> [] /\ m !! u "reasoning_content" = Some (JStr r)
                /\ truthy (get m (u "content") JNull) = false
                /\ m' = set_content (derived_content r) m).
Proof.
  destruct (truthy (get m (u "content") JNull)) eqn:Hc.
  { rewrite fill_content_kept by done. intros [= <-]. left. eauto. }
  destruct (truthy (get m (u "reasoning_content") JNull)) eqn:Hr.
  2:{ unfold fill_content. rewrite Hc, Hr. intros [= <-]. left. eauto. }
  unfold get in Hr.
  destruct (m !! u "reasoning_content") as [[| | | |r| |]|] eqn:Hm;
    try (unfold fill_content, get; rewrite Hm; fold (get m (u "content") JNull);
         rewrite Hc; simpl in Hr |- *; try rewrite Hr; done).
  assert (Hne : r <> []) by (by destruct r).
  rewrite (fill_content_derived m r) by done.
  intros [= <-]. right. eauto.
Qed.

Lemma normalize_choice_cases (choice choice' : json) :
  normalize_choice choice = inr choice' ->
  exists c : gmap (list N) json,
    choice = JObj c
    /\ ((choice' = choice
         /\ forall m : gmap (list N) json,
              c !! u "message" = Some (JObj m) ->
              truthy (get m (u "content") JNull) = true
              \/ truthy (get m (u "reasoning_content") JNull) = false)
        \/ exists (m : gmap (list N) json) r,
             c !! u "message" = Some (JObj m)
             /\ r <> [] /\ m !! u "reasoning_content" = Some (JStr r)
             /\ truthy (get m (u "content") JNull) = false
             /\ choice' = JObj (<[u "message" :=
                                   JObj (set_content (derived_content r) m)]> c)).
Proof.
  destruct choice as [| | | | | |c]; try done. unfold normalize_choice, get at 1.
  intros Hn. exists c. split; [done|].
  destruct (c !! u "message") as [v|] eqn:Hv; simpl in Hn.
  - destruct v as [| | | | | |m]; try done.
    destruct (fill_content m) as [e|m'] eqn:Hf; [done|]. injection Hn as <-.
    apply fill_content_cases in Hf as [[-> Hcond]|(r & Hne & Hr & Hc & ->)].
    + left. split; [by rewrite insert_id|]. by intros m' [= <-].
    + right. eauto 10.
  - destruct (fill_content ∅) as [e|m'] eqn:Hf; [done|]. injection Hn as <-.
    by left.
Qed.

Lemma normalize_choice_fixed (choice choice' : json) :
  normalize_choice choice = inr choice' -> normalize_choice choice' = inr choice'.
Proof.
  intros Hn.
  pose proof Hn as (c & -> & [[-> _]|(m & r & Hm & Hne & Hr & Hc & ->)])%normalize_choice_cases;
    [done|].
  apply (normalize_choice_kept _ (set_content (derived_content r) m)).
  - by rewrite lookup_insert_eq.
  - rewrite get_set_content. simpl. by apply derived_content_nonempty.
Qed.

Lemma Forall2_fixed (cs cs' : list json) :
  Forall2 (fun c c' => normalize_choice c = inr c') cs cs' ->
  choices_loop cs' = inr cs'.
Proof.
  induction 1 as [|c c' cs cs' Hc _ IH]; [done|]. simpl.
  by rewrite (normalize_choice_fixed c c' Hc), IH.
Qed.

(** X14. Normalizing what was normalized changes nothing. *)
Theorem normalize_idempotent (response_data out : json) :
  normalize response_data = inr out -> normalize out = inr out.
Proof.
  destruct response_data as [| | | |s|l|d]; try done; simpl.
  - destruct (contains (u "choices") s) eqn:Hs; [done|]. intros [= <-].
    simpl. by rewrite Hs.
  - destruct (existsb (is_str (u "choices")) l) eqn:Hl; [done|]. intros [= <-].
    simpl. by rewrite Hl.
  - destruct (d !! u "choices") as [choices|] eqn:Hd.
    + destruct (iterate choices) as [e|cs] eqn:Hi; [done|].
      destruct (choices_loop cs) as [e|cs'] eqn:Hl; [done|].
      destruct choices as [| | | |s|l|dd]; try done.
      * intros [= <-]. simpl. rewrite Hd. simpl in *. injection Hi as <-.
        by rewrite Hl.
      * simpl in Hi. injection Hi as <-. intros [= <-]. simpl.
        rewrite lookup_insert_eq. simpl.
        rewrite (Forall2_fixed l cs') by by apply choices_loop_inr.
        by rewrite insert_insert_eq.
      * intros [= <-]. simpl. rewrite Hd. simpl in *. injection Hi as <-.
        by rewrite Hl.
    + intros [= <-]. simpl. by rewrite Hd.
Qed.

(** X15. In what the normalizer relays, every choice is the choice that
    upstream sent but for the content of its message: the other fields of
    the response, of each choice and of each message are as they came, and
    there are as many choices. *)
Theorem normalize_changes_content_only (d : gmap (list N) json)
    (cs : list json) (out : json) :
  d !! u "choices" = Some (JArr cs) ->
  normalize (JObj d) = inr out ->
  exists cs',
    out = JObj (<[u "choices" := JArr cs']> d)
    /\ Forall2 (fun choice choice' =>
                  exists c c' : gmap (list N) json,
                    choice = JObj c /\ choice' = JObj c'
                    /\ same_but_content c c') cs cs'.
Proof.
  intros Hd (cs' & -> & Hall)%(normalize_choices d cs); [|done].
  exists cs'. split; [done|]. eapply Forall2_impl; [exact Hall|].
  intros choice choice' (c & -> & [[-> _]|(m & r & Hm & _ & _ & _ & ->)])%normalize_choice_cases.
  - exists c, c. split_and!; try done. unfold same_but_content. split; [done|].
    destruct (c !! u "message") as [[| | | | | |m]|]; try done.
    by exists m.
  - eexists c, _. split_and!; try done. unfold same_but_content. split.
    + intros k Hk. by rewrite lookup_insert_ne.
    + rewrite Hm. eexists. split; [by rewrite lookup_insert_eq|].
      intros k Hk. unfold set_content. by rewrite lookup_insert_ne.
Qed.

Lemma normalize_choice_answered (choice choice' : json) :
  normalize_choice choice = inr choice' -> answered choice'.
Proof.
  intros (c & -> & [[-> Hcond]|(m & r & Hm & Hne & Hrc & Hcf & ->)])%normalize_choice_cases
    c' m' [= <-] Hm' Hr.
  - destruct (Hcond m' Hm') as [?|?]; [done|congruence].
  - rewrite lookup_insert_eq in Hm'. injection Hm' as <-.
    rewrite get_set_content. simpl. by apply derived_content_nonempty.
Qed.

(** X16. In what the normalizer relays, every choice whose message has a
    reasoning_content that counts as true has a content that counts as
    true. *)
Theorem normalize_answers_every_choice (d : gmap (list N) json)
    (cs : list json) (out : json) :
  d !! u "choices" = Some (JArr cs) ->
  normalize (JObj d) = inr out ->
  exists cs',
    out = JObj (<[u "choices" := JArr cs']> d) /\ Forall answered cs'.
Proof.
  intros Hd (cs' & -> & Hall)%(normalize_choices d cs); [|done].
  exists cs'. split; [done|].
  clear Hd. induction Hall as [|choice choice' cs cs' Hc _ IH]; constructor;
    [by eapply normalize_choice_answered|done].
Qed.

End normalizer_extras.

Section relay_extras.
Import reasoning_proxy reasoning_spec normalizer_spec groq_server reasoning_server.

Lemma fill_content_empty : fill_content ∅ = inr ∅.
Proof. done. Qed.

Lemma normalize_choice_raises (choice : json) :
  (exists e, normalize_choice choice = inl e) <-> malformed choice.
Proof.
  split.
  - intros [e He]. destruct choice as [| | | | | |c];
      try (left; intros c; discriminate).
    right. unfold normalize_choice, get at 1 in He.
    destruct (c !! u "message") as [v|] eqn:Hv; simpl in He.
    + destruct v as [| | | | | |m];
        try (left; exists c; eexists; split_and!; [done..|discriminate]).
      right. destruct (fill_content m) as [e'|m'] eqn:Hf;
        [|by destruct (c !! u "message")].
      unfold fill_content in Hf.
      destruct (truthy (get m (u "content") JNull)) eqn:Hc; [done|].
      destruct (truthy (get m (u "reasoning_content") JNull)) eqn:Hr; [|done].
      simpl in Hf. unfold get in Hf, Hr.
      destruct (m !! u "reasoning_content") as [r|] eqn:Hm; [|done].
      simpl in Hf, Hr. exists c, m, r. split_and!; try done.
      intros s ->. done.
    + by rewrite fill_content_empty in He.
  - intros [Hno|[(c & v & -> & Hv & Hno)|(c & m & r & -> & Hm & Hc & Hr & Ht & Hno)]].
    + destruct choice as [| | | | | |c]; try by eexists. by destruct (Hno c).
    + unfold normalize_choice, get. rewrite Hv. simpl.
      destruct v as [| | | | | |m]; try by eexists. by destruct (Hno m).
    + unfold normalize_choice, get at 1. rewrite Hm. simpl.
      unfold fill_content. rewrite Hc. unfold get. rewrite Hr. simpl. rewrite Ht.
      destruct r as [| | | |s| |]; try by eexists. by destruct (Hno s).
Qed.

Lemma choices_loop_raises (cs : list json) :
  (exists e, choices_loop cs = inl e) <-> Exists malformed cs.
Proof.
  induction cs as [|choice cs IH]; simpl.
  - split; [by intros [e ?]|by intros ?%Exists_nil].
  - rewrite Exists_cons, <- IH, <- normalize_choice_raises.
    destruct (normalize_choice choice) as [e|choice'].
    + split; eauto.
    + destruct (choices_loop cs) as [e|cs'].
      * split; eauto.
      * split; [by intros [e ?]|by intros [[e ?]|[e ?]]].
Qed.

(** X17. An answer of upstream whose choices are a list is relayed with
    status 200 unless one of the choices is malformed; one malformed choice
    turns the whole answer into the error 500, the other choices with
    it. *)
Theorem malformed_choice_fails_response
    (json_decode : list N -> exn + json)
    (wide_decode : encoding -> list N -> option (list N))
    (body : list N) (d : gmap (list N) json) (cs : list json) :
  loads json_decode wide_decode body = inr (JObj d) ->
  d !! u "choices" = Some (JArr cs) ->
  (Exists malformed cs
   -> respond json_decode wide_decode (Responded body) = SentError 500)
  /\ (~ Exists malformed cs
      -> exists out, respond json_decode wide_decode (Responded body)
                     = SentJson 200 out).
Proof.
  intros Hl Hd. unfold respond, on_response. rewrite Hl. simpl. rewrite Hd.
  simpl. split.
  - intros [e ->]%choices_loop_raises. done.
  - intros Hno. destruct (choices_loop cs) as [e|cs'] eqn:Hc; [|eauto].
    destruct Hno. apply choices_loop_raises. eauto.
Qed.

(** X18. Slashes at the end of [--target] do not count: with one more
    the proxy calls the same URL for every path, and the base it keeps never
    ends in a slash. *)
Theorem target_trailing_slash (target : list N) (key : option (list N))
    (environ : gmap (list N) (list N)) (path : list N)
    (header : option (list N)) (body : list N) :
  build_request (main_settings (target ++ u "/") key environ) path header body
  = build_request (main_settings target key environ) path header body
  /\ last (target_base_url (main_settings target key environ)) <> Some 47.
Proof.
  unfold build_request, main_settings, rstrip_chars. simpl target_base_url.
  eval_u. rewrite rstrip_by_snoc_drop by done. split; [done|].
  intros Hl%rstrip_by_last. done.
Qed.

End relay_extras.

Section normalizer_extras_witnesses.
Import reasoning_proxy reasoning_spec normalizer_spec groq_server reasoning_server.

Lemma normalize_idempotent_witness :
  normalize sample_relayed = inr sample_relayed.
Proof.
  apply (normalize_idempotent (response_of sample_choices) sample_relayed).
  vm_compute. reflexivity.
Defined.

Lemma normalize_changes_content_only_witness :
  exists cs',
    sample_relayed = JObj (<[u "choices" := JArr cs']> (response_dict sample_choices))
    /\ Forall2 (fun choice choice' =>
                  exists c c' : gmap (list N) json,
                    choice = JObj c /\ choice' = JObj c'
                    /\ same_but_content c c') sample_choices cs'.
Proof.
  apply (normalize_changes_content_only (response_dict sample_choices)
           sample_choices sample_relayed);
    vm_compute; reflexivity.
Defined.

Lemma normalize_answers_every_choice_witness :
  exists cs',
    sample_relayed = JObj (<[u "choices" := JArr cs']> (response_dict sample_choices))
    /\ Forall answered cs'.
Proof.
  apply (normalize_answers_every_choice (response_dict sample_choices)
           sample_choices sample_relayed);
    vm_compute; reflexivity.
Defined.

Lemma malformed_choice_fails_response_witness :
  respond (groq_spec.decode_only broken_text (response_of broken_choices))
    groq_spec.no_wide (Responded broken_text) = SentError 500.
Proof.
  apply (malformed_choice_fails_response
           (groq_spec.decode_only broken_text (response_of broken_choices))
           groq_spec.no_wide broken_text (response_dict broken_choices) broken_choices);
    [vm_compute; reflexivity ..|].
  apply Exists_cons. right. apply Exists_cons. left. left. discriminate.
Defined.

End normalizer_extras_witnesses.

(** *** [hellaswag_uk/utils.py]: [preprocess] *)

Section bracket_facts.
Import Re bench bench_spec hellaswag.

Variable isalnum : N -> bool.

Lemma match_here_bracket prev x s :
  match_here isalnum bracket_re None prev (x :: s)
  = if 91 =? x
    then bump 1 (match_here isalnum
                   [MinStar (CSet [(0, 9); (11, 0x10ffff)]); Lit (u "]")]
                   None (Some 91) s)
    else None.
Proof.
  unfold bracket_re.
  change (match_here isalnum (Lit (u "[") :: ?k) None prev (x :: s))
    with (if startswith (x :: s) (u "[")
          then bump (length (u "["))
                 (match_here isalnum k None (last_or prev (u "["))
                    (drop (length (u "[")) (x :: s)))
          else None).
  eval_u. cbn [startswith]. rewrite andb_true_r. by destruct (91 =? x).
Qed.

Lemma match_here_close g prev s :
  match_here isalnum [Lit (u "]")] g prev s
  = match s with
    | c :: _ => if c =? 93 then Some (1%nat, g) else None
    | [] => None
    end.
Proof.
  change (match_here isalnum [Lit (u "]")] g prev s)
    with (if startswith s (u "]")
          then bump (length (u "]"))
                 (match_here isalnum [] g (last_or prev (u "]"))
                    (drop (length (u "]")) s))
          else None).
  eval_u. destruct s as [|c s]; [done|]. cbn [startswith].
  rewrite andb_true_r, (N.eqb_sym 93 c). by destruct (c =? 93).
Qed.

Lemma lazy_close_Some s : forall g prev,
  closes s = true ->
  exists n, match_here isalnum
              [MinStar (CSet [(0, 9); (11, 0x10ffff)]); Lit (u "]")] g prev s
            = Some (n, g).
Proof.
  induction s as [|c s IH]; intros g prev Hc; [done|].
  rewrite match_here_min_star, match_here_close. cbn [closes] in Hc.
  destruct (c =? 93); [eauto|]. fold (dot_char c).
  destruct (dot_char c); [|done].
  destruct (IH g (Some c) Hc) as [n ->]. simpl. eauto.
Qed.

Lemma lazy_close_None s : forall g prev,
  closes s = false ->
  match_here isalnum
    [MinStar (CSet [(0, 9); (11, 0x10ffff)]); Lit (u "]")] g prev s = None.
Proof.
  induction s as [|c s IH]; intros g prev Hc;
    rewrite match_here_min_star, match_here_close; [done|].
  cbn [closes] in Hc. destruct (c =? 93); [done|]. fold (dot_char c).
  destruct (dot_char c); [|done]. by rewrite IH.
Qed.

(** Where the pattern does not match, the character is copied. *)
Lemma sub_bracket_copy prev x s :
  (x = 91 -> closes s = false) ->
  sub_from isalnum bracket_re 0 prev (x :: s)
  = x :: sub_from isalnum bracket_re 0 (Some x) s.
Proof.
  intros Hx. rewrite sub_from_cons, match_here_bracket.
  destruct (91 =? x) eqn:Hb; [|done]. apply N.eqb_eq in Hb.
  by rewrite lazy_close_None by (by apply Hx).
Qed.

(** Where it matches, the scan goes on somewhere after the bracket. *)
Lemma sub_bracket_match prev s :
  closes s = true ->
  exists prev' k, sub_from isalnum bracket_re 0 prev (91 :: s)
                  = sub_from isalnum bracket_re 0 prev' (drop k s).
Proof.
  intros Hc. rewrite sub_from_cons, match_here_bracket. simpl (91 =? 91).
  cbv iota. destruct (lazy_close_Some s None (Some 91) Hc) as [n ->]. simpl.
  destruct (sub_from_skip isalnum bracket_re s n (Some 91)) as [prev' ->].
  eauto.
Qed.

Lemma closes_sub s : forall prev,
  closes s = false -> closes (sub_from isalnum bracket_re 0 prev s) = false.
Proof.
  induction s as [|c s IH]; intros prev Hc; [done|].
  cbn [closes] in Hc. destruct (c =? 93) eqn:H93; [done|].
  assert (Hd : dot_char 91 = true) by done.
  rewrite sub_bracket_copy.
  - cbn [closes]. rewrite H93. destruct (dot_char c); [by apply IH|done].
  - intros ->. by rewrite Hd in Hc.
Qed.

Lemma no_tag_sub n : forall s prev,
  (length s <= n)%nat -> no_tag (sub_from isalnum bracket_re 0 prev s).
Proof.
  induction n as [|n IH]; intros s prev Hn.
  - destruct s; [done|simpl in Hn; lia].
  - destruct s as [|x s]; [done|]. simpl in Hn.
    destruct (decide (x = 91 /\ closes s = true)) as [[-> Hc]|Hno].
    + destruct (sub_bracket_match prev s Hc) as (prev' & k & ->).
      apply IH. rewrite length_drop. lia.
    + assert (Hx : x = 91 -> closes s = false).
      { intros ->. destruct (closes s); [by destruct Hno|done]. }
      rewrite sub_bracket_copy by done. split.
      * intros Hb. apply closes_sub. by apply Hx.
      * apply IH. lia.
Qed.

Lemma replace_spaces_double t :
  replace_from (u "  ") (u " ") 0 (32 :: 32 :: t)
  = 32 :: replace_from (u "  ") (u " ") 0 t.
Proof. done. Qed.

Lemma replace_spaces_single x s :
  x <> 32 \/ head s <> Some 32 ->
  replace_from (u "  ") (u " ") 0 (x :: s)
  = x :: replace_from (u "  ") (u " ") 0 s.
Proof.
  intros Hx. eval_u. cbn [replace_from startswith].
  destruct (32 =? x) eqn:H1; [|done]. apply N.eqb_eq in H1 as <-.
  destruct s as [|y t]; [done|].
  destruct (32 =? y) eqn:H2; [|done]. apply N.eqb_eq in H2 as <-.
  by destruct Hx.
Qed.

Lemma spaces_cases x s :
  (exists t, x = 32 /\ s = 32 :: t) \/ (x <> 32 \/ head s <> Some 32).
Proof.
  destruct (decide (x = 32)) as [->|]; [|by right; left].
  destruct s as [|y t]; [by right; right|].
  destruct (decide (y = 32)) as [->|]; [left; eauto|].
  right. right. simpl. congruence.
Qed.

Lemma closes_space r : closes (32 :: r) = closes r.
Proof. done. Qed.

Lemma closes_replace n : forall s,
  (length s <= n)%nat ->
  closes (replace_from (u "  ") (u " ") 0 s) = closes s.
Proof.
  induction n as [|n IH]; intros s Hn.
  - destruct s; [done|simpl in Hn; lia].
  - destruct s as [|x s]; [done|]. simpl in Hn.
    destruct (spaces_cases x s) as [(t & -> & ->)|Hx].
    + rewrite replace_spaces_double. simpl in Hn.
      rewrite !closes_space. apply IH. lia.
    + rewrite replace_spaces_single by done. cbn [closes].
      by rewrite IH by lia.
Qed.

Lemma no_tag_replace n : forall s,
  (length s <= n)%nat ->
  no_tag s -> no_tag (replace_from (u "  ") (u " ") 0 s).
Proof.
  induction n as [|n IH]; intros s Hn.
  - destruct s; [done|simpl in Hn; lia].
  - destruct s as [|x s]; [done|]. simpl in Hn.
    destruct (spaces_cases x s) as [(t & -> & ->)|Hx].
    + rewrite replace_spaces_double. simpl in Hn. intros (_ & _ & Ht).
      split; [done|]. apply IH; [lia|done].
    + rewrite replace_spaces_single by done. intros [Hc Hs]. split.
      * intros Hb. rewrite (closes_replace (length s)) by done. by apply Hc.
      * apply IH; [lia|done].
Qed.

Lemma closes_false_newline m b :
  closes (m ++ 93 :: b) = false -> Exists (fun c => c = 10 \/ 0x10ffff < c) m.
Proof.
  induction m as [|c m IH]; [done|]. simpl app. cbn [closes].
  destruct (c =? 93); [done|]. destruct (dot_char c) eqn:Hd.
  - intros ?%IH. by apply Exists_cons_tl.
  - intros _. apply Exists_cons_hd. revert Hd. unfold dot_char. simpl.
    unfold in_range. lia.
Qed.

Lemma no_tag_app a t : no_tag (a ++ 91 :: t) -> closes t = false.
Proof.
  induction a as [|x a IH]; simpl; [|tauto]. intros [Hc _]. by apply Hc.
Qed.

Lemma preprocess_no_tag text : no_tag (preprocess isalnum text).
Proof.
  unfold preprocess, sub_empty.
  change (replace (u "  ") (u " ") ?s)
    with (replace_from (u "  ") (u " ") 0 s).
  eapply no_tag_replace; [done|]. by eapply no_tag_sub.
Qed.

(** X19. [preprocess] leaves no bracketed tag: between an opening bracket
    of what it returns and any closing bracket after it there is a newline
    (or a value that is no code point), which the dot of the pattern does
    not cross. *)
Theorem preprocess_removes_tags (text a m b : list N) :
  preprocess isalnum text = a ++ u "[" ++ m ++ u "]" ++ b ->
  Exists (fun c => c = 10 \/ 0x10ffff < c) m.
Proof.
  intros Heq. pose proof (preprocess_no_tag text) as Hno.
  rewrite Heq in Hno. revert Hno. eval_u. simpl app. intros Hc%no_tag_app.
  by eapply closes_false_newline.
Qed.

End bracket_facts.

Lemma preprocess_removes_tags_witness :
  Exists (fun c => c = 10 \/ 0x10ffff < c) (u "c" ++ [10] ++ u "d").
Proof.
  apply (preprocess_removes_tags filter_spec.sample_isalnum
           (u " a [x] b [c" ++ [10] ++ u "d] ") (u "a b ")
           (u "c" ++ [10] ++ u "d") []).
  vm_compute. reflexivity.
Defined.

(** *** The prompts and their targets *)

Section bench_facts.
Import bench bench_spec.

Lemma lookup_combine {A B} (a : list A) (b : list B) i x y :
  a !! i = Some x -> b !! i = Some y -> combine a b !! i = Some (x, y).
Proof.
  revert b i. induction a as [|x' a IH]; intros [|y' b] [|i]; simpl; try done.
  - by intros [= ->] [= ->].
  - apply IH.
Qed.

(** X20. Winogrande is cut at its first blank: for a sentence with a
    blank, the two choices are the text before the first blank followed by
    each option, and the target is the trimmed text after that blank. *)
Theorem winogrande_cut_at_first_blank (d : preprocess_winogrande.doc)
    (pre post : list N) :
  preprocess_winogrande.sentence d = pre ++ u "_" ++ post ->
  95 ∉ pre ->
  preprocess_winogrande.doc_to_choice d
  = inr [pre ++ preprocess_winogrande.option1 d;
         pre ++ preprocess_winogrande.option2 d]
  /\ preprocess_winogrande.doc_to_target d = inr (strip post).
Proof.
  intros Hs Hpre.
  unfold preprocess_winogrande.doc_to_choice, preprocess_winogrande.doc_to_target,
    index.
  rewrite Hs. eval_u. simpl app. rewrite find_split_char by done. split.
  - simpl. by rewrite !take_app_length.
  - do 2 f_equal. change (pre ++ 95 :: post) with (pre ++ [95] ++ post).
    rewrite app_assoc.
    replace (length pre + 1)%nat with (length (pre ++ [95]))
      by (rewrite length_app; simpl; lia).
    by rewrite drop_app_length.
Qed.

(** X21. A sentence without a blank gives neither choices nor target:
    [index] raises [ValueError] in both. *)
Theorem winogrande_without_blank (d : preprocess_winogrande.doc) :
  95 ∉ preprocess_winogrande.sentence d ->
  preprocess_winogrande.doc_to_choice d = inl ValueError
  /\ preprocess_winogrande.doc_to_target d = inl ValueError.
Proof.
  intros Hno.
  unfold preprocess_winogrande.doc_to_choice, preprocess_winogrande.doc_to_target,
    index.
  eval_u.
  destruct (find_split [95] (preprocess_winogrande.sentence d)) as [[a b]|] eqn:Hf;
    [|done].
  destruct Hno. apply contains_char. unfold contains. by rewrite Hf.
Qed.

(** X22. The three readings of the answer of Winogrande agree: the
    index that [doc_to_text] returns, the letter that
    [doc_to_target_generate] returns and the option they name go together,
    answer ["1"] with index 0, letter A and the first option, answer ["2"]
    with index 1, letter B and the second; the choice at that index ends
    with that option and the prompt has the line of that letter and option.
    Any other answer raises [KeyError] in both. *)
Theorem winogrande_answer_agrees (d : preprocess_winogrande.doc) :
  (exists i L opt,
     preprocess_winogrande.doc_to_text d = inr i
     /\ preprocess_winogrande.doc_to_target_generate d = inr L
     /\ ((preprocess_winogrande.answer d = u "1" /\ i = 0%Z /\ L = u "A"
          /\ opt = preprocess_winogrande.option1 d)
         \/ (preprocess_winogrande.answer d = u "2" /\ i = 1%Z /\ L = u "B"
             /\ opt = preprocess_winogrande.option2 d))
     /\ (forall cs, preprocess_winogrande.doc_to_choice d = inr cs ->
           exists pre, cs !! Z.to_nat i = Some (pre ++ opt))
     /\ exists a b, preprocess_winogrande.doc_to_text_generate d
                    = a ++ [10] ++ L ++ u ". " ++ opt ++ [10] ++ b)
  \/ (preprocess_winogrande.answer d <> u "1"
      /\ preprocess_winogrande.answer d <> u "2"
      /\ preprocess_winogrande.doc_to_text d = inl KeyError
      /\ preprocess_winogrande.doc_to_target_generate d = inl KeyError).
Proof.
  unfold preprocess_winogrande.doc_to_text,
    preprocess_winogrande.doc_to_target_generate,
    preprocess_winogrande.at_key,
    preprocess_winogrande.answer_to_num,
    preprocess_winogrande.answer_to_letter.
  destruct (decide (preprocess_winogrande.answer d = u "1")) as [H1|H1].
  - left. rewrite H1. exists 0%Z, (u "A"), (preprocess_winogrande.option1 d).
    split_and!; [done|done|by left| |].
    + intros cs. unfold preprocess_winogrande.doc_to_choice.
      destruct (index _ _) as [|idx]; [done|]. intros [= <-]. eauto.
    + unfold preprocess_winogrande.doc_to_text_generate.
      generalize (uk "Заповніть пропуск (_) у реченні правильним варіантом:"),
        (uk "Речення: "), (uk "Відповідь:").
      intros h1 h2 h3.
      exists (h1 ++ [10; 10] ++ h2 ++ preprocess_winogrande.sentence d ++ [10]),
        (u "B. " ++ preprocess_winogrande.option2 d ++ [10; 10] ++ h3).
      rewrite <- !app_assoc. reflexivity.
  - destruct (decide (preprocess_winogrande.answer d = u "2")) as [H2|H2].
    + left. rewrite H2. exists 1%Z, (u "B"), (preprocess_winogrande.option2 d).
      split_and!; [done|done|by right| |].
      * intros cs. unfold preprocess_winogrande.doc_to_choice.
        destruct (index _ _) as [|idx]; [done|]. intros [= <-]. eauto.
      * unfold preprocess_winogrande.doc_to_text_generate.
        generalize (uk "Заповніть пропуск (_) у реченні правильним варіантом:"),
          (uk "Речення: "), (uk "Відповідь:").
        intros h1 h2 h3.
        exists (h1 ++ [10; 10] ++ h2 ++ preprocess_winogrande.sentence d
                  ++ [10; 10] ++ u "A. " ++ preprocess_winogrande.option1 d),
          ([10] ++ h3).
        rewrite <- !app_assoc. reflexivity.
    + right. split_and!; [done|done| |].
      * rewrite !list_to_map_cons, list_to_map_nil. cbn [fst snd].
        by rewrite !lookup_insert_ne, lookup_empty by done.
      * rewrite !list_to_map_cons, list_to_map_nil. cbn [fst snd].
        by rewrite !lookup_insert_ne, lookup_empty by done.
Qed.


(** X24. The gold index of HellaSwag is read as Python reads an index:
    from 4 on and below -4 the target raises [IndexError]; from -4 to -1 it
    counts from the end, so that -1 gives D. *)
Theorem hellaswag_target_index (d : hellaswag.doc) :
  ((4 <= hellaswag.gold d \/ hellaswag.gold d < -4)%Z ->
   hellaswag.doc_to_target_generate d = inl IndexError)
  /\ ((-4 <= hellaswag.gold d < 0)%Z ->
      hellaswag.doc_to_target_generate d
      = item hellaswag.options (hellaswag.gold d + 4)
      /\ exists L, hellaswag.doc_to_target_generate d = inr L).
Proof.
  unfold hellaswag.doc_to_target_generate, item.
  change (Z.of_nat (length hellaswag.options)) with 4%Z. split.
  - intros Hg. destruct (hellaswag.gold d <? 0)%Z eqn:H0.
    + destruct (hellaswag.gold d + 4 <? 0)%Z eqn:H1; [done|lia].
    + rewrite H0. rewrite lookup_ge_None_2; [done|]. simpl. lia.
  - intros Hg.
    assert (Hcase : (hellaswag.gold d = -4 \/ hellaswag.gold d = -3
                     \/ hellaswag.gold d = -2 \/ hellaswag.gold d = -1)%Z) by lia.
    destruct Hcase as [Hk|[Hk|[Hk|Hk]]]; rewrite Hk; split; try done; by eexists.
Qed.



End bench_facts.

Section bench_witnesses.
Import bench bench_spec.

Lemma winogrande_cut_at_first_blank_witness :
  preprocess_winogrande.doc_to_choice sample_winogrande
  = inr [u "The cup fell off the table because the " ++ u "cup";
         u "The cup fell off the table because the " ++ u "table"]
  /\ preprocess_winogrande.doc_to_target sample_winogrande
     = inr (strip (u " was wet.")).
Proof.
  apply (winogrande_cut_at_first_blank sample_winogrande
           (u "The cup fell off the table because the ") (u " was wet."));
    [vm_compute; reflexivity|by_decide].
Defined.

Lemma winogrande_without_blank_witness :
  preprocess_winogrande.doc_to_choice
    {| preprocess_winogrande.sentence := u "No blank here.";
       preprocess_winogrande.option1 := u "a";
       preprocess_winogrande.option2 := u "b";
       preprocess_winogrande.answer := u "1" |} = inl ValueError
  /\ preprocess_winogrande.doc_to_target
       {| preprocess_winogrande.sentence := u "No blank here.";
          preprocess_winogrande.option1 := u "a";
          preprocess_winogrande.option2 := u "b";
          preprocess_winogrande.answer := u "1" |} = inl ValueError.
Proof.
  apply (winogrande_without_blank
           {| preprocess_winogrande.sentence := u "No blank here.";
              preprocess_winogrande.option1 := u "a";
              preprocess_winogrande.option2 := u "b";
              preprocess_winogrande.answer := u "1" |}).
  by_decide.
Defined.


Lemma hellaswag_target_index_witness :
  hellaswag.doc_to_target_generate
    {| hellaswag.query := []; hellaswag.choices := [];
       hellaswag.gold := 4; hellaswag.label := 4 |} = inl IndexError.
Proof.
  apply (proj1 (hellaswag_target_index
                  {| hellaswag.query := []; hellaswag.choices := [];
                     hellaswag.gold := 4; hellaswag.label := 4 |})).
  left. simpl. lia.
Defined.



End bench_witnesses.
